(** * Recipe Finder: a shallow embedding of [src/App.js]

    The development models the logical core of the React component:
    the two normalisation helpers [extractIngredients] and
    [formatInstructions], the ingredient search [searchRecipes] and the
    detail fetch [fetchRecipeDetails].

    Conventions.
    - A JavaScript string is a [string]; its characters are the code units
      0..255.
    - A value that may be [null] or [undefined] is an [option].
    - The component state (the [useState] cells) is the record [app_state];
      every [setX] call is a functional update of one field.
    - An [await] is a suspension point: an asynchronous function is split
      into the part that runs synchronously when it is called and a step
      function that consumes the settlement of one network request. *)

From Stdlib Require Import String Ascii List Bool Arith Lia DecimalString.
From stdpp Require Import base option list gmap strings.
Import ListNotations.

Local Open Scope string_scope.
Local Open Scope list_scope.
Local Open Scope nat_scope.

(* ================================================================== *)
(** * Part I: the embedding *)
(* ================================================================== *)

(** ** JavaScript string primitives *)

(** [String.prototype.trim] strips WhiteSpace and LineTerminator code
    points.  Below 256 these are TAB, LF, VT, FF, CR, SPACE and NBSP. *)
Definition is_whitespace (c : ascii) : bool :=
  let n := nat_of_ascii c in
  ((9 <=? n) && (n <=? 13)) || (n =? 32) || (n =? 160).

Fixpoint trimStart (s : string) : string :=
  match s with
  | EmptyString => EmptyString
  | String c s' => if is_whitespace c then trimStart s' else s
  end.

Fixpoint trimEnd (s : string) : string :=
  match s with
  | EmptyString => EmptyString
  | String c s' =>
      match trimEnd s' with
      | EmptyString => if is_whitespace c then EmptyString else String c EmptyString
      | String _ _ as t => String c t
      end
  end.

(** [s.trim()] *)
Definition trim (s : string) : string := trimEnd (trimStart s).

(** [s.split(sep)] for a one-character separator.  The result is never
    empty: [''.split(',')] is [['']]. *)
Fixpoint split (sep : ascii) (s : string) : list string :=
  match s with
  | EmptyString => [EmptyString]
  | String c s' =>
      if Ascii.eqb c sep then EmptyString :: split sep s'
      else match split sep s' with
           | piece :: rest => String c piece :: rest
           | [] => [String c EmptyString]
           end
  end.

(** [arr.join(sep)] on an array of strings. *)
Fixpoint join (sep : string) (l : list string) : string :=
  match l with
  | [] => EmptyString
  | [x] => x
  | x :: rest => x +:+ sep +:+ join sep rest
  end.

(** Truthiness of a string: every string but [''] is truthy. *)
Definition truthy (s : string) : bool :=
  match s with
  | EmptyString => false
  | String _ _ => true
  end.

(** Template-literal rendering of a number: [`${i}`]. *)
Definition string_of_nat (n : nat) : string :=
  NilEmpty.string_of_uint (Nat.to_uint n).

Definition LF : ascii := "010"%char.
Definition comma : ascii := ","%char.
Definition dquote : string := String "034"%char EmptyString.

(** Properties of strings used to state the results. *)
Fixpoint all_whitespace (s : string) : bool :=
  match s with
  | EmptyString => true
  | String c s' => is_whitespace c && all_whitespace s'
  end.

Definition first_char (s : string) : option ascii :=
  match s with
  | EmptyString => None
  | String c _ => Some c
  end.

Fixpoint last_char (s : string) : option ascii :=
  match s with
  | EmptyString => None
  | String c EmptyString => Some c
  | String _ s' => last_char s'
  end.

Fixpoint contains_char (c : ascii) (s : string) : bool :=
  match s with
  | EmptyString => false
  | String a s' => Ascii.eqb a c || contains_char c s'
  end.

(** A string is trimmed when it neither starts nor ends with whitespace. *)
Definition trimmed (s : string) : Prop :=
  (forall c, first_char s = Some c -> is_whitespace c = false) /\
  (forall c, last_char s = Some c -> is_whitespace c = false).

(** [t] occurs in [s] as a contiguous run of characters. *)
Definition substring_of (t s : string) : Prop :=
  exists pre post, s = pre +:+ t +:+ post.

(** ** The upstream records *)

(** A field of a JSON object of the upstream service: [null] or a string.
    A key that is absent from the object reads as [undefined], which is
    [None] of the map lookup. *)
Inductive json_value : Type :=
  | JNull
  | JString (s : string).

(** The full record returned by the lookup-by-identifier endpoint; its
    fields ([strMeal], [strIngredient1], ..., [strMeasure20], ...) are read
    by name. *)
Abbreviation RecipeDetail := (gmap string json_value).

(** ** extractIngredients (App.js, lines 9-27) *)

Record IngredientLine : Type := mkIngredientLine {
  ingredient : string;
  measure : string
}.

(** [ingredient && ingredient.trim()] *)
Definition ingredient_present (v : option json_value) : option string :=
  match v with
  | Some (JString s) => if truthy s && truthy (trim s) then Some s else None
  | _ => None
  end.

(** [(measure || '')] *)
Definition measure_or_empty (v : option json_value) : string :=
  match v with
  | Some (JString s) => if truthy s then s else EmptyString
  | _ => EmptyString
  end.

(** One iteration of the loop body, for slot [i]. *)
Definition extract_step (recipeDetails : RecipeDetail)
    (ingredients : list IngredientLine) (i : nat) : list IngredientLine :=
  let ingredient := recipeDetails !! ("strIngredient" +:+ string_of_nat i) in
  let measure := recipeDetails !! ("strMeasure" +:+ string_of_nat i) in
  match ingredient_present ingredient with
  | Some s =>
      ingredients ++
        [ {| ingredient := trim s; measure := trim (measure_or_empty measure) |} ]
  | None => ingredients
  end.

(** [for (let i = 1; i <= 20; i++) { ... }] *)
Definition extractIngredients (recipeDetails : RecipeDetail) : list IngredientLine :=
  foldl (extract_step recipeDetails) [] (seq 1 20).

(** ** formatInstructions (App.js, lines 34-41) *)

Definition formatInstructions (instructions : option string) : list string :=
  match instructions with
  | None => []
  | Some s =>
      if truthy s then
        map trim (List.filter (fun step => truthy (trim step)) (split LF s))
      else []
  end.

(** A summary returned by the lookup-by-ingredient endpoint. *)
Record RecipeSummary : Type := mkRecipeSummary {
  idMeal : string;
  strMeal : string;
  strMealThumb : string
}.

(** ** Exceptions *)

(** A thrown JavaScript error object: its [name] and [message]. *)
Record js_error : Type := mkError {
  err_name : string;
  err_message : string
}.

Definition Error (message : string) : js_error := mkError "Error" message.
Definition TypeError (message : string) : js_error := mkError "TypeError" message.
Definition SyntaxError (message : string) : js_error := mkError "SyntaxError" message.

(** A computation that returns a value or throws. *)
Definition result (A : Type) : Type := js_error + A.
Definition throw {A : Type} (e : js_error) : result A := inl e.

#[export] Instance result_ret : MRet result := fun A x => inr x.
#[export] Instance result_bind : MBind result := fun A B f m =>
  match m with
  | inl e => inl e
  | inr x => f x
  end.

(** ** The network *)

(** The parsed body of a response of either endpoint: an object whose
    [meals] property is [null] or an array of records. *)
Record ApiResponse (A : Type) : Type := mkApiResponse {
  meals : option (list A)
}.
Arguments mkApiResponse {A} _.
Arguments meals {A} _.

Inductive response_body (A : Type) : Type :=
  | InvalidJson (message : string)   (* [res.json()] rejects with a SyntaxError *)
  | JsonBody (data : ApiResponse A).
Arguments InvalidJson {A} _.
Arguments JsonBody {A} _.

(** How one [fetch] ends: it rejects with a TypeError when the request
    cannot reach the service, and otherwise resolves to a response with a
    status code and a body. *)
Inductive fetch_outcome (A : Type) : Type :=
  | TransportFailure (message : string)
  | HttpResponse (status : nat) (body : response_body A).
Arguments TransportFailure {A} _.
Arguments HttpResponse {A} _ _.

(** [response.ok]: the status is in the range 200-299. *)
Definition ok (status : nat) : bool := (200 <=? status) && (status <=? 299).

(** The settlement of the promise
    [fetch(url).then(res => { if (!res.ok) throw new Error(...); return res.json(); })],
    which is also what the two awaits of the single-term branch and of
    [fetchRecipeDetails] produce. *)
Definition settle {A : Type} (o : fetch_outcome A) : result (ApiResponse A) :=
  match o with
  | TransportFailure message => throw (TypeError message)
  | HttpResponse status body =>
      if ok status then
        match body with
        | InvalidJson message => throw (SyntaxError message)
        | JsonBody data => mret data
        end
      else throw (Error ("HTTP error! status: " +:+ string_of_nat status))
  end.

(** ** The component state *)

Record app_state : Type := mkState {
  searchQuery : string;
  recipes : list RecipeSummary;
  loading : bool;
  error : string;
  hasSearched : bool;
  selectedRecipe : option RecipeSummary;
  recipeDetails : option RecipeDetail;
  detailsLoading : bool;
  detailsError : string;
  console : list (string * js_error)   (* what [console.error] has logged *)
}.

Definition setRecipes (v : list RecipeSummary) (st : app_state) : app_state :=
  mkState (searchQuery st) v (loading st) (error st) (hasSearched st)
    (selectedRecipe st) (recipeDetails st) (detailsLoading st) (detailsError st)
    (console st).

Definition setLoading (v : bool) (st : app_state) : app_state :=
  mkState (searchQuery st) (recipes st) v (error st) (hasSearched st)
    (selectedRecipe st) (recipeDetails st) (detailsLoading st) (detailsError st)
    (console st).

Definition setError (v : string) (st : app_state) : app_state :=
  mkState (searchQuery st) (recipes st) (loading st) v (hasSearched st)
    (selectedRecipe st) (recipeDetails st) (detailsLoading st) (detailsError st)
    (console st).

Definition setHasSearched (v : bool) (st : app_state) : app_state :=
  mkState (searchQuery st) (recipes st) (loading st) (error st) v
    (selectedRecipe st) (recipeDetails st) (detailsLoading st) (detailsError st)
    (console st).

Definition setSelectedRecipe (v : option RecipeSummary) (st : app_state) : app_state :=
  mkState (searchQuery st) (recipes st) (loading st) (error st) (hasSearched st)
    v (recipeDetails st) (detailsLoading st) (detailsError st) (console st).

Definition setRecipeDetails (v : option RecipeDetail) (st : app_state) : app_state :=
  mkState (searchQuery st) (recipes st) (loading st) (error st) (hasSearched st)
    (selectedRecipe st) v (detailsLoading st) (detailsError st) (console st).

Definition setDetailsLoading (v : bool) (st : app_state) : app_state :=
  mkState (searchQuery st) (recipes st) (loading st) (error st) (hasSearched st)
    (selectedRecipe st) (recipeDetails st) v (detailsError st) (console st).

Definition setDetailsError (v : string) (st : app_state) : app_state :=
  mkState (searchQuery st) (recipes st) (loading st) (error st) (hasSearched st)
    (selectedRecipe st) (recipeDetails st) (detailsLoading st) v (console st).

(** [console.error(label, err)] *)
Definition console_error (label : string) (err : js_error) (st : app_state) : app_state :=
  mkState (searchQuery st) (recipes st) (loading st) (error st) (hasSearched st)
    (selectedRecipe st) (recipeDetails st) (detailsLoading st) (detailsError st)
    (console st ++ [(label, err)]).

(** Statements in sequence: [st |> f |> g] runs [f], then [g]. *)
Notation "st |> f" := (f st) (at level 40, left associativity, only parsing).

(** ** searchRecipes (App.js, lines 67-158) *)

(** [query.split(',').map(s => s.trim()).filter(Boolean)] *)
Definition parse_ingredients (query : string) : list string :=
  List.filter truthy (map trim (split comma query)).

Definition no_results_single (query : string) : string :=
  "No recipes found with " +:+ dquote +:+ query +:+ dquote +:+
  ". Try another ingredient like chicken, tomato, or pasta!".

Definition no_results_multi (ingredients : list string) : string :=
  "No recipes found that match all ingredients: " +:+ dquote +:+
  join ", " ingredients +:+ dquote +:+ ".".

Definition network_error_message : string :=
  "Network error: Please check your internet connection and try again.".

Definition search_failure_message : string :=
  "Sorry, we encountered an error while searching. Please try again in a moment.".

(** Reading [r.meals] as an array: [r.meals.map(...)], [r.meals.find(...)].
    On [null] the property access throws a TypeError. *)
Definition meals_array {A : Type} (r : ApiResponse A) : result (list A) :=
  match meals r with
  | Some l => mret l
  | None => throw (TypeError "Cannot read properties of null")
  end.

(** [results[0].meals]: on an empty array [results[0]] is [undefined] and
    the property access throws a TypeError. *)
Definition first_meals {A : Type} (results : list (ApiResponse A)) : result (list A) :=
  match results with
  | r :: _ => meals_array r
  | [] => throw (TypeError "Cannot read properties of undefined (reading 'meals')")
  end.

(** [new Map(pairs)]: entries are set from left to right, so a later pair
    replaces an earlier one with the same key. *)
Definition js_Map {V : Type} (pairs : list (string * V)) : gmap string V :=
  foldl (fun m p => <[p.1 := p.2]> m) ∅ pairs.

(** The fallback of lines 131-136:
    [for (const r of results) { const found = r.meals.find(m => m.idMeal === id);
                                if (found) return found; }
     return null;] *)
Fixpoint fallback_scan (results : list (ApiResponse RecipeSummary)) (id : string)
    : result (option RecipeSummary) :=
  match results with
  | [] => mret None
  | r :: rest =>
      ms ← meals_array r;
      match List.find (fun m => String.eqb (idMeal m) id) ms with
      | Some found => mret (Some found)
      | None => fallback_scan rest id
      end
  end.

(** The callback of [commonIds.map] (lines 129-137). *)
Definition resolve_meal (mealMap : gmap string RecipeSummary)
    (results : list (ApiResponse RecipeSummary)) (id : string)
    : result (option RecipeSummary) :=
  match mealMap !! id with
  | Some m => mret (Some m)
  | None => fallback_scan results id
  end.

(** [idSets], [firstList], [commonIds] and [mealMap] of lines 121-128. *)
Definition id_sets (results : list (ApiResponse RecipeSummary))
    : result (list (gset string)) :=
  mapM (fun r => ms ← meals_array r; mret (list_to_set (map idMeal ms))) results.

Definition common_ids (idSets : list (gset string)) (firstList : list RecipeSummary)
    : list string :=
  List.filter (fun id => forallb (fun s : gset string => bool_decide (id ∈ s)) idSets)
    (map idMeal firstList).

Definition meal_map (firstList : list RecipeSummary) : gmap string RecipeSummary :=
  js_Map (map (fun m => (idMeal m, m)) firstList).

(** Lines 121-137: the list [intersected]; the trailing [.filter(Boolean)]
    drops the [null]s. *)
Definition intersect (results : list (ApiResponse RecipeSummary))
    : result (list RecipeSummary) :=
  idSets ← id_sets results;
  firstList ← first_meals results;
  let commonIds := common_ids idSets firstList in
  let mealMap := meal_map firstList in
  found ← mapM (resolve_meal mealMap results) commonIds;
  mret (omap (fun x : option RecipeSummary => x) found).

(** The body of the [try] block after the await, single-term branch
    (lines 95-102). *)
Definition single_term_body (query : string) (data : ApiResponse RecipeSummary)
    (st : app_state) : result app_state :=
  match meals data with
  | Some l => mret (st |> setRecipes l)
  | None => mret (st |> setRecipes [] |> setError (no_results_single query))
  end.

(** [results.some(r => !r.meals)] *)
Definition some_null (results : list (ApiResponse RecipeSummary)) : bool :=
  existsb (fun r => negb (bool_decide (is_Some (meals r)))) results.

(** The body of the [try] block after [await Promise.all(fetches)],
    multi-term branch (lines 116-145). *)
Definition multi_term_body (ingredients : list string)
    (results : list (ApiResponse RecipeSummary)) (st : app_state) : result app_state :=
  if some_null results then
    mret (st |> setRecipes [] |> setError (no_results_multi ingredients))
  else
    intersected ← intersect results;
    if 0 <? length intersected then mret (st |> setRecipes intersected)
    else mret (st |> setRecipes [] |> setError (no_results_multi ingredients)).

(** The [catch] block (lines 147-154). *)
Definition search_catch (err : js_error) (st : app_state) : app_state :=
  st |> console_error "Search error:" err
     |> setError (if String.eqb (err_name err) "TypeError"
                  then network_error_message else search_failure_message)
     |> setRecipes [].

(** [try { body } catch { ... } finally { setLoading(false) }].  Every throw
    of the [try] block comes before its first state update, so the handler
    runs on the state the block started from. *)
Definition search_try (body : app_state -> result app_state) (st : app_state) : app_state :=
  match body st with
  | inr st' => st' |> setLoading false
  | inl err => st |> search_catch err |> setLoading false
  end.

(** What a suspended [searchRecipes] is waiting for. *)
Inductive search_task : Type :=
  | AwaitFetch (query : string)
      (* single-term branch, suspended at [await fetch(...)]: request 0 *)
  | AwaitAll (ingredients : list string)
             (slots : list (option (ApiResponse RecipeSummary))).
      (* multi-term branch, suspended at [await Promise.all(fetches)]:
         slot [i] holds the value of request [i] once it has fulfilled *)

(** [Promise.all] fulfils, with the values in request order, once every
    slot is filled; the function then resumes with the multi-term body. *)
Definition resume_all (ingredients : list string)
    (slots : list (option (ApiResponse RecipeSummary))) (st : app_state)
    : app_state * option search_task :=
  match mapM (fun x : option (ApiResponse RecipeSummary) => x) slots with
  | Some results => (search_try (multi_term_body ingredients results) st, None)
  | None => (st, Some (AwaitAll ingredients slots))
  end.

(** The synchronous part of a call [searchRecipes(query)] (lines 68-113):
    the guard, the state resets, the parsing of the query and the issue of
    one request per term, numbered from 0 in term order. *)
Definition searchRecipes_call (query : string) (st : app_state)
    : app_state * option search_task :=
  if truthy (trim query) then
    let st := st |> setLoading true |> setError "" |> setDetailsError ""
                 |> setHasSearched true |> setSelectedRecipe None
                 |> setRecipeDetails None in
    let ingredients := parse_ingredients query in
    if length ingredients =? 1 then (st, Some (AwaitFetch query))
    else resume_all ingredients (replicate (length ingredients) None) st
  else (st, None).

(** Request [i] settles, with outcome [net i].
    - A search that has already finished ignores it.
    - [Promise.all] rejects on the first rejection of one of its promises,
      with that error, whatever the state of the other requests; a
      fulfilment fills the slot. *)
Definition searchRecipes_step (net : nat -> fetch_outcome RecipeSummary)
    (cfg : app_state * option search_task) (i : nat)
    : app_state * option search_task :=
  match cfg with
  | (st, None) => cfg
  | (st, Some (AwaitFetch query)) =>
      if i =? 0 then
        (search_try (fun st => data ← settle (net 0); single_term_body query data st) st,
         None)
      else cfg
  | (st, Some (AwaitAll ingredients slots)) =>
      match slots !! i with
      | Some None =>
          match settle (net i) with
          | inl err => (search_try (fun _ => throw err) st, None)
          | inr data => resume_all ingredients (<[i := Some data]> slots) st
          end
      | _ => cfg
      end
  end.

(** A whole search: the call, then the settlements of the requests in the
    order [order] in which the network delivers them. *)
Definition searchRecipes (query : string) (net : nat -> fetch_outcome RecipeSummary)
    (order : list nat) (st : app_state) : app_state * option search_task :=
  foldl (searchRecipes_step net) (searchRecipes_call query st) order.

(** ** fetchRecipeDetails (App.js, lines 164-197) *)

Definition details_connection_message : string :=
  "Unable to load recipe details. Please check your connection.".

Definition details_failure_message : string :=
  "Sorry, we couldn't load the recipe details. Please try again.".

(** The synchronous part (lines 165-173); [true] when a request was issued. *)
Definition fetchRecipeDetails_call (recipeId : string) (st : app_state)
    : app_state * bool :=
  if truthy recipeId then
    (st |> setDetailsLoading true |> setDetailsError "", true)
  else (st, false).

(** The [try] block after the awaits (lines 175-185); [data.meals?.[0]] is
    the first element of [meals] when [meals] is a non-empty array. *)
Definition details_body (o : fetch_outcome RecipeDetail) (st : app_state)
    : result app_state :=
  data ← settle o;
  match meals data ≫= head with
  | Some d => mret (st |> setRecipeDetails (Some d))
  | None => throw (Error "Recipe details not found")
  end.

(** The [catch] block (lines 186-193). *)
Definition details_catch (err : js_error) (st : app_state) : app_state :=
  st |> console_error "Details fetch error:" err
     |> setDetailsError (if String.eqb (err_name err) "TypeError"
                         then details_connection_message
                         else details_failure_message)
     |> setRecipeDetails None.

(** The request of a suspended [fetchRecipeDetails] settles. *)
Definition fetchRecipeDetails_settle (o : fetch_outcome RecipeDetail)
    (st : app_state) : app_state :=
  match details_body o st with
  | inr st' => st' |> setDetailsLoading false
  | inl err => st |> details_catch err |> setDetailsLoading false
  end.

(** A whole detail fetch. *)
Definition fetchRecipeDetails (recipeId : string) (o : fetch_outcome RecipeDetail)
    (st : app_state) : app_state :=
  match fetchRecipeDetails_call recipeId st with
  | (st', true) => fetchRecipeDetails_settle o st'
  | (st', false) => st'
  end.

(** ** The click handlers (App.js, lines 202-215) *)

(** The synchronous part of [handleRecipeClick(recipe)]: the two updates
    and the call of [fetchRecipeDetails]. *)
Definition handleRecipeClick_call (recipe : RecipeSummary) (st : app_state) : app_state :=
  fst (fetchRecipeDetails_call (idMeal recipe)
         (st |> setSelectedRecipe (Some recipe) |> setRecipeDetails None)).

Definition closeModal (st : app_state) : app_state :=
  st |> setSelectedRecipe None |> setRecipeDetails None |> setDetailsError "".

(** ** The other handlers (App.js, lines 218-256 and 433) *)

Definition setSearchQuery (v : string) (st : app_state) : app_state :=
  mkState v (recipes st) (loading st) (error st) (hasSearched st)
    (selectedRecipe st) (recipeDetails st) (detailsLoading st) (detailsError st)
    (console st).

(** [handleEscape] (lines 219-223), on a key event with key name [key]. *)
Definition handleEscape (key : string) (st : app_state) : app_state :=
  if String.eqb key "Escape" && bool_decide (is_Some (selectedRecipe st))
  then closeModal st else st.

(** The synchronous part of [handleSubmit] (lines 232-235). *)
Definition handleSubmit (st : app_state) : app_state * option search_task :=
  searchRecipes_call (searchQuery st) st.

(** [handleSearchAgain] (lines 240-248). *)
Definition handleSearchAgain (st : app_state) : app_state :=
  st |> setSearchQuery "" |> setRecipes [] |> setError "" |> setHasSearched false
     |> setSelectedRecipe None |> setRecipeDetails None |> setDetailsError "".

(** The synchronous part of [handleSuggestionClick] (lines 253-256). *)
Definition handleSuggestionClick (ingredient : string) (st : app_state)
    : app_state * option search_task :=
  searchRecipes_call ingredient (st |> setSearchQuery ingredient).

(** The suggestion tags of line 380. *)
Definition suggestions : list string := ["chicken"; "tomato"; "pasta"; "rice"].

(** ** What is rendered (App.js, lines 258-518) *)

(** The [disabled] attributes of the text input (line 275) and of the
    submit button (line 283). *)
Definition input_disabled (st : app_state) : bool := loading st.

Definition submit_disabled (st : app_state) : bool :=
  loading st || negb (truthy (trim (searchQuery st))).

(** The conditions of the four panels of the main area (lines 303, 311,
    327 and 372). *)
Definition shows_loading (st : app_state) : bool := loading st.

Definition shows_error (st : app_state) : bool := truthy (error st).

Definition shows_results (st : app_state) : bool :=
  negb (loading st) && negb (truthy (error st)) && (0 <? length (recipes st)).

Definition shows_welcome (st : app_state) : bool :=
  negb (loading st) && negb (truthy (error st)) && negb (hasSearched st).

(** The overlay (line 396) and the chain of conditionals of its body
    (lines 421-497). *)
Inductive modal_view : Type :=
  | ModalHidden
  | ModalLoading
  | ModalError (message : string)
  | ModalDetails (d : RecipeDetail)
  | ModalEmpty.

Definition modal (st : app_state) : modal_view :=
  match selectedRecipe st with
  | None => ModalHidden
  | Some _ =>
      if detailsLoading st then ModalLoading
      else if truthy (detailsError st) then ModalError (detailsError st)
      else match recipeDetails st with
           | Some d => ModalDetails d
           | None => ModalEmpty
           end
  end.

(** ** The component as a transition system *)

(** The component with its requests in flight: the state cells, the
    suspended calls of [searchRecipes] and the number of suspended calls
    of [fetchRecipeDetails]. *)
Record app : Type := mkApp {
  ui : app_state;
  searches : list search_task;
  detail_requests : nat
}.

(** The component as mounted: the initial values of the [useState] cells
    (lines 53-61). *)
Definition mounted : app :=
  mkApp (mkState "" [] false "" false None None false "" []) [] 0.

(** One event: a user action that the rendered page offers, or the
    settlement of a request in flight.
    - The input accepts text unless it is disabled (lines 272-275).
    - The form is submitted through its button, or by Enter in the input,
      which a disabled submit button blocks (lines 266, 283).
    - A suggestion tag exists while the welcome panel is rendered (lines
      372-384); the two reset buttons exist while the error panel or the
      results grid is rendered (lines 311-335); a recipe card exists for
      each recipe of the rendered grid (lines 327-348).
    - The overlay, with its two close buttons, exists while a recipe is
      selected (lines 396-412, 511); its retry button exists in the error
      branch of its body (lines 426-433).
    - The key listener is always attached (lines 218-227). *)
Inductive app_step : app -> app -> Prop :=
  | step_type (a : app) (text : string) :
      input_disabled (ui a) = false ->
      app_step a (mkApp (ui a |> setSearchQuery text) (searches a) (detail_requests a))
  | step_submit (a : app) :
      submit_disabled (ui a) = false ->
      app_step a (mkApp (fst (handleSubmit (ui a)))
                    (searches a ++ option_list (snd (handleSubmit (ui a))))
                    (detail_requests a))
  | step_suggestion (a : app) (ingredient : string) :
      shows_welcome (ui a) = true ->
      In ingredient suggestions ->
      app_step a (mkApp (fst (handleSuggestionClick ingredient (ui a)))
                    (searches a ++ option_list (snd (handleSuggestionClick ingredient (ui a))))
                    (detail_requests a))
  | step_search_again (a : app) :
      shows_error (ui a) || shows_results (ui a) = true ->
      app_step a (mkApp (handleSearchAgain (ui a)) (searches a) (detail_requests a))
  | step_recipe_click (a : app) (recipe : RecipeSummary) :
      shows_results (ui a) = true ->
      In recipe (recipes (ui a)) ->
      app_step a
        (mkApp (handleRecipeClick_call recipe (ui a)) (searches a)
           (detail_requests a + (if truthy (idMeal recipe) then 1 else 0)))
  | step_close (a : app) :
      modal (ui a) <> ModalHidden ->
      app_step a (mkApp (closeModal (ui a)) (searches a) (detail_requests a))
  | step_key (a : app) (key : string) :
      app_step a (mkApp (handleEscape key (ui a)) (searches a) (detail_requests a))
  | step_retry (a : app) (recipe : RecipeSummary) (message : string) :
      selectedRecipe (ui a) = Some recipe ->
      modal (ui a) = ModalError message ->
      app_step a
        (mkApp (fst (fetchRecipeDetails_call (idMeal recipe) (ui a))) (searches a)
           (detail_requests a + (if truthy (idMeal recipe) then 1 else 0)))
  | step_search_settles (a : app) (before after : list search_task)
        (task : search_task) (i : nat) (o : fetch_outcome RecipeSummary) :
      searches a = before ++ task :: after ->
      app_step a
        (mkApp (fst (searchRecipes_step (fun _ => o) (ui a, Some task) i))
           (before ++ option_list (snd (searchRecipes_step (fun _ => o) (ui a, Some task) i))
              ++ after)
           (detail_requests a))
  | step_detail_settles (a : app) (o : fetch_outcome RecipeDetail) (pending : nat) :
      detail_requests a = S pending ->
      app_step a (mkApp (fetchRecipeDetails_settle o (ui a)) (searches a) pending).

(** The states the component can be in. *)
Inductive reachable : app -> Prop :=
  | reachable_mounted : reachable mounted
  | reachable_step (a b : app) : reachable a -> app_step a b -> reachable b.

(** ** Definitions for the statements *)

(** The name and the measure stored in slot [i] of a detail record, when
    the field is present and holds a string. *)
Definition slot_name (d : RecipeDetail) (i : nat) : option string :=
  match d !! ("strIngredient" +:+ string_of_nat i) with
  | Some (JString s) => Some s
  | _ => None
  end.

Definition slot_measure (d : RecipeDetail) (i : nat) : option string :=
  match d !! ("strMeasure" +:+ string_of_nat i) with
  | Some (JString s) => Some s
  | _ => None
  end.

(** The entry the specification asks for slot [i]: one entry when the name
    is present and not blank, with the measure defaulting to the empty
    string; no entry otherwise. *)
Definition spec_slot_line (d : RecipeDetail) (i : nat) : option IngredientLine :=
  match slot_name d i with
  | Some name =>
      if all_whitespace name then None
      else Some {| ingredient := trim name;
                   measure := trim (default "" (slot_measure d i)) |}
  | None => None
  end.

(** A slot is empty when its name is absent, [null] or blank. *)
Definition slot_empty (d : RecipeDetail) (i : nat) : Prop :=
  match slot_name d i with
  | Some name => all_whitespace name = true
  | None => True
  end.

(** The state a search starts its requests from: the six resets of lines
    71-76 applied to the state at the call. *)
Definition search_reset (st : app_state) : app_state :=
  st |> setLoading true |> setError "" |> setDetailsError ""
     |> setHasSearched true |> setSelectedRecipe None |> setRecipeDetails None.

(** The slots of [Promise.all] over [n] requests when exactly the requests
    in [settled] have fulfilled, request [i] with the value [dat i]. *)
Definition fulfilled_slots (dat : nat -> ApiResponse RecipeSummary) (n : nat)
    (settled : list nat) : list (option (ApiResponse RecipeSummary)) :=
  (fun i => if bool_decide (i ∈ settled) then Some (dat i) else None) <$> seq 0 n.

(** Every request of [order] is one of the [n] requests and fulfils with
    the value [dat] gives it. *)
Definition fulfilled_requests (net : nat -> fetch_outcome RecipeSummary)
    (dat : nat -> ApiResponse RecipeSummary) (n : nat) (order : list nat) : Prop :=
  forall i, i ∈ order -> i < n /\ settle (net i) = inr (dat i).

(** The responses of requests that all matched: [meals] is the list. *)
Definition matched (lists : list (list RecipeSummary)) : list (ApiResponse RecipeSummary) :=
  map (fun l => mkApiResponse (Some l)) lists.

(** In [order], each of the [n] requests settles exactly once. *)
Definition complete_schedule (n : nat) (order : list nat) : Prop :=
  NoDup order /\ forall i, i ∈ order <-> i < n.

(** The three ways a search that started its requests in state [st] can
    end: with a recipe list, with a no-results message, or in the [catch]
    block. *)
Inductive search_end (st : app_state) : app_state -> Prop :=
  | end_recipes (l : list RecipeSummary) :
      search_end st (st |> setRecipes l |> setLoading false)
  | end_no_results (message : string) :
      search_end st (st |> setRecipes [] |> setError message |> setLoading false)
  | end_caught (err : js_error) :
      search_end st (st |> search_catch err |> setLoading false).

(** The value request [i] fulfils with, when it fulfils. *)
Definition settled_data (net : nat -> fetch_outcome RecipeSummary) (i : nat)
    : ApiResponse RecipeSummary :=
  match settle (net i) with
  | inr data => data
  | inl _ => mkApiResponse None
  end.


(** The lookup-by-identifier request is answered, with a success status,
    by a body that holds no record: [meals] is [null] or an empty array. *)
Definition no_matching_record (o : fetch_outcome RecipeDetail) : Prop :=
  exists status ms,
    o = HttpResponse status (JsonBody (mkApiResponse ms)) /\
    ok status = true /\ ms ≫= head = None.

(** The reading of "a failed detail fetch does not mutate the previously
    displayed detail state": the detail record in the state is the same
    after the response as before it. *)
Definition failed_fetch_keeps_details : Prop :=
  forall (o : fetch_outcome RecipeDetail) (st : app_state),
    no_matching_record o ->
    recipeDetails (fetchRecipeDetails_settle o st) = recipeDetails st.

(** The identifier of [m] occurs in every one of the result lists. *)
Definition in_every_result (lists : list (list RecipeSummary)) (m : RecipeSummary) : bool :=
  forallb (fun l => existsb (String.eqb (idMeal m)) (map idMeal l)) lists.

(** The specified outcome of a multi-term search: the first term's list,
    filtered to the recipes whose identifier every term's list contains. *)
Definition spec_intersection (lists : list (list RecipeSummary)) : list RecipeSummary :=
  match lists with
  | [] => []
  | firstList :: _ => List.filter (in_every_result lists) firstList
  end.

(** The part of the state the detail overlay shows. *)
Definition detail_view (st : app_state)
    : option RecipeSummary * option RecipeDetail * string :=
  (selectedRecipe st, recipeDetails st, detailsError st).

(** The forty field names [extractIngredients] reads. *)
Definition slot_keys : list string :=
  flat_map (fun i => ["strIngredient" +:+ string_of_nat i; "strMeasure" +:+ string_of_nat i])
    (seq 1 20).

(** A well-formed search term: not empty, trimmed and free of commas. *)
Definition term_ok (t : string) : Prop :=
  t <> "" /\ trimmed t /\ contains_char comma t = false.

(** The response holds a record: a success status and a readable body
    whose [meals] array starts with [d]. *)
Definition record_found (o : fetch_outcome RecipeDetail) (d : RecipeDetail) : Prop :=
  exists status rest,
    o = HttpResponse status (JsonBody (mkApiResponse (Some (d :: rest)))) /\
    ok status = true.

(** Responses of detail requests arriving one after the other. *)
Definition details_settle_all (os : list (fetch_outcome RecipeDetail))
    (st : app_state) : app_state :=
  foldl (fun s o => fetchRecipeDetails_settle o s) st os.

(** What a finished search writes, apart from the state it started
    from: a recipe list, a no-results message, or a caught error. *)
Inductive search_outcome : Type :=
  | OutRecipes (l : list RecipeSummary)
  | OutNoResults (message : string)
  | OutCaught (err : js_error).

Definition apply_outcome (out : search_outcome) (st : app_state) : app_state :=
  match out with
  | OutRecipes l => st |> setRecipes l |> setLoading false
  | OutNoResults message => st |> setRecipes [] |> setError message |> setLoading false
  | OutCaught err => st |> search_catch err |> setLoading false
  end.

(** The outcome puts something on the page: a non-empty list or a
    non-empty message. *)
Definition outcome_visible (out : search_outcome) : Prop :=
  match out with
  | OutRecipes l => l <> []
  | OutNoResults message => truthy message = true
  | OutCaught _ => True
  end.

(** Two states that differ at most in the console log. *)
Definition same_display (st1 st2 : app_state) : Prop :=
  searchQuery st1 = searchQuery st2 /\ recipes st1 = recipes st2 /\
  loading st1 = loading st2 /\ error st1 = error st2 /\
  hasSearched st1 = hasSearched st2 /\ selectedRecipe st1 = selectedRecipe st2 /\
  recipeDetails st1 = recipeDetails st2 /\ detailsLoading st1 = detailsLoading st2 /\
  detailsError st1 = detailsError st2.

(** What holds of the component in every state it can reach (proved
    below): at most one search is in flight, and the loading flag is on
    exactly then; while it is on there is no error, a search has been
    made and no recipe is selected; an error comes with an empty recipe
    list; before any search there is neither a recipe nor an error. *)
Definition app_inv (a : app) : Prop :=
  (loading (ui a) = true /\ (exists task, searches a = [task]) \/
   loading (ui a) = false /\ searches a = []) /\
  (loading (ui a) = true ->
     error (ui a) = "" /\ hasSearched (ui a) = true /\ selectedRecipe (ui a) = None) /\
  (error (ui a) <> "" -> recipes (ui a) = []) /\
  (hasSearched (ui a) = false -> recipes (ui a) = [] /\ error (ui a) = "").

(** The request does not succeed: it cannot reach the service, or it is
    answered with a non-success status, or with a body that is not JSON.
    These are the cases in which its promise rejects. *)
Definition rejects {A : Type} (o : fetch_outcome A) : Prop :=
  (exists message, o = TransportFailure message) \/
  (exists status body, o = HttpResponse status body /\ ok status = false) \/
  (exists status message, o = HttpResponse status (InvalidJson message) /\ ok status = true).

(** ** The component with the origin of its detail record *)

(** The component together with a count of the searches started so far
    (the generation), the generation in which each detail request still in
    flight was issued, oldest first, and the generation of the request
    whose response put the current detail record in place ([None] while
    the record is [null]).  The three are bookkeeping: no rule below reads
    them to decide what the component does. *)
Record traced : Type := mkTraced {
  page : app;
  generation : nat;
  issued : list nat;
  record_by : option nat
}.

(** The events of [app_step], with the bookkeeping each one implies.
    - A search start opens a new generation and, as lines 75-76 do, drops
      the record.
    - A click or a retry with a non-empty identifier issues a request in
      the current generation; a click drops the record (line 204).
    - Closing the overlay and resetting the search drop the record.
    - A settled detail request leaves the list; its response becomes the
      record when it holds one (line 182), and otherwise the record is
      dropped (line 193). *)
Inductive traced_step : traced -> traced -> Prop :=
  | traced_type (t : traced) (text : string) :
      input_disabled (ui (page t)) = false ->
      traced_step t
        (mkTraced (mkApp (ui (page t) |> setSearchQuery text) (searches (page t))
                     (detail_requests (page t)))
           (generation t) (issued t) (record_by t))
  | traced_submit (t : traced) :
      submit_disabled (ui (page t)) = false ->
      traced_step t
        (mkTraced (mkApp (fst (handleSubmit (ui (page t))))
                     (searches (page t) ++ option_list (snd (handleSubmit (ui (page t)))))
                     (detail_requests (page t)))
           (S (generation t)) (issued t) None)
  | traced_suggestion (t : traced) (ingredient : string) :
      shows_welcome (ui (page t)) = true ->
      In ingredient suggestions ->
      traced_step t
        (mkTraced (mkApp (fst (handleSuggestionClick ingredient (ui (page t))))
                     (searches (page t)
                        ++ option_list (snd (handleSuggestionClick ingredient (ui (page t)))))
                     (detail_requests (page t)))
           (S (generation t)) (issued t) None)
  | traced_search_again (t : traced) :
      shows_error (ui (page t)) || shows_results (ui (page t)) = true ->
      traced_step t
        (mkTraced (mkApp (handleSearchAgain (ui (page t))) (searches (page t))
                     (detail_requests (page t)))
           (generation t) (issued t) None)
  | traced_recipe_click (t : traced) (recipe : RecipeSummary) :
      shows_results (ui (page t)) = true ->
      In recipe (recipes (ui (page t))) ->
      traced_step t
        (mkTraced (mkApp (handleRecipeClick_call recipe (ui (page t))) (searches (page t))
                     (detail_requests (page t) + (if truthy (idMeal recipe) then 1 else 0)))
           (generation t)
           (issued t ++ (if truthy (idMeal recipe) then [generation t] else []))
           None)
  | traced_close (t : traced) :
      modal (ui (page t)) <> ModalHidden ->
      traced_step t
        (mkTraced (mkApp (closeModal (ui (page t))) (searches (page t))
                     (detail_requests (page t)))
           (generation t) (issued t) None)
  | traced_key (t : traced) (key : string) :
      traced_step t
        (mkTraced (mkApp (handleEscape key (ui (page t))) (searches (page t))
                     (detail_requests (page t)))
           (generation t) (issued t)
           (if String.eqb key "Escape" && bool_decide (is_Some (selectedRecipe (ui (page t))))
            then None else record_by t))
  | traced_retry (t : traced) (recipe : RecipeSummary) (message : string) :
      selectedRecipe (ui (page t)) = Some recipe ->
      modal (ui (page t)) = ModalError message ->
      traced_step t
        (mkTraced (mkApp (fst (fetchRecipeDetails_call (idMeal recipe) (ui (page t))))
                     (searches (page t))
                     (detail_requests (page t) + (if truthy (idMeal recipe) then 1 else 0)))
           (generation t)
           (issued t ++ (if truthy (idMeal recipe) then [generation t] else []))
           (record_by t))
  | traced_search_settles (t : traced) (before after : list search_task)
        (task : search_task) (i : nat) (o : fetch_outcome RecipeSummary) :
      searches (page t) = before ++ task :: after ->
      traced_step t
        (mkTraced
           (mkApp (fst (searchRecipes_step (fun _ => o) (ui (page t), Some task) i))
              (before
                 ++ option_list (snd (searchRecipes_step (fun _ => o) (ui (page t), Some task) i))
                 ++ after)
              (detail_requests (page t)))
           (generation t) (issued t) (record_by t))
  | traced_detail_settles (t : traced) (o : fetch_outcome RecipeDetail)
        (pending : nat) (earlier later : list nat) (g : nat) :
      detail_requests (page t) = S pending ->
      issued t = earlier ++ g :: later ->
      traced_step t
        (mkTraced (mkApp (fetchRecipeDetails_settle o (ui (page t))) (searches (page t)) pending)
           (generation t) (earlier ++ later)
           (match details_body o (ui (page t)) with
            | inr _ => Some g
            | inl _ => None
            end)).

Inductive traced_reachable : traced -> Prop :=
  | traced_mounted : traced_reachable (mkTraced mounted 0 [] None)
  | traced_reachable_step (t t' : traced) :
      traced_reachable t -> traced_step t t' -> traced_reachable t'.


(** ** Sample data *)

Definition line_break : string := String LF "".

(** The text [Step one.], two line breaks, [Step two.], a line break and
    two spaces. *)
Definition example_instructions : string :=
  "Step one." +:+ line_break +:+ line_break +:+ "Step two." +:+ line_break +:+ "  ".

(** The same two steps separated by CR LF pairs. *)
Definition example_instructions_crlf : string :=
  "Step one." +:+ String "013"%char line_break +:+ String "013"%char line_break
  +:+ "Step two.".

(** A detail record with slots 1, 3 and 5 populated; slot 2 is the empty
    string, slot 4 is [null], slot 6 is blank and slots 7-20 are absent. *)
Definition example_detail : RecipeDetail :=
  list_to_map
    [ ("idMeal", JString "52772");
      ("strMeal", JString "Teriyaki Chicken Casserole");
      ("strIngredient1", JString "soy sauce"); ("strMeasure1", JString "3/4 cup");
      ("strIngredient2", JString ""); ("strMeasure2", JString "");
      ("strIngredient3", JString " water "); ("strMeasure3", JNull);
      ("strIngredient4", JNull); ("strMeasure4", JString "1 tsp");
      ("strIngredient5", JString "brown sugar"); ("strMeasure5", JString " 1/4 cup ");
      ("strIngredient6", JString "  "); ("strMeasure6", JString "2") ].

(** Four summaries and a fresh component state. *)
Definition recipeX : RecipeSummary := mkRecipeSummary "52940" "Brown Stew Chicken" "x.jpg".
Definition recipeY : RecipeSummary := mkRecipeSummary "52846" "Chicken and mushroom Hotpot" "y.jpg".
Definition recipeZ : RecipeSummary := mkRecipeSummary "52796" "Chicken Alfredo Primavera" "z.jpg".
Definition recipeW : RecipeSummary := mkRecipeSummary "52934" "Chicken Basquaise" "w.jpg".

(** A second record under the identifier of [recipeX]. *)
Definition recipeX' : RecipeSummary := mkRecipeSummary "52940" "Jerk Chicken" "x2.jpg".

Definition initial_state : app_state :=
  mkState "" [] false "" false None None false "" [].

(** The upstream lists of a two-term search: term A gives X, Y, Z and
    term B gives Y, Z, W. *)
Definition upstreamAB (i : nat) : list RecipeSummary :=
  match i with
  | 0 => [recipeX; recipeY; recipeZ]
  | _ => [recipeY; recipeZ; recipeW]
  end.

Definition netAB (i : nat) : fetch_outcome RecipeSummary :=
  HttpResponse 200 (JsonBody (mkApiResponse (Some (upstreamAB i)))).

(** Term A matches, term B has no match ([meals] is [null]). *)
Definition netNoMatch (i : nat) : fetch_outcome RecipeSummary :=
  match i with
  | 0 => netAB 0
  | _ => HttpResponse 200 (JsonBody (mkApiResponse None))
  end.

(** Term A matches, the request for term B cannot reach the service. *)
Definition netDown (i : nat) : fetch_outcome RecipeSummary :=
  match i with
  | 0 => netAB 0
  | _ => TransportFailure "Failed to fetch"
  end.

(** Term A matches, the request for term B is answered with status 500. *)
Definition netBroken (i : nat) : fetch_outcome RecipeSummary :=
  match i with
  | 0 => netAB 0
  | _ => HttpResponse 500 (InvalidJson "Unexpected token")
  end.

(** A state left behind by an earlier search and an open detail view. *)
Definition stale_state : app_state :=
  mkState "chicken" [recipeX] false "" true (Some recipeX) (Some example_detail)
    false "Unable to load recipe details. Please check your connection." [].

(** Two overlapping detail fetches.  The user opens recipe X, closes the
    overlay while the request is in flight, and opens recipe Y; the
    response for Y arrives first and is displayed. *)
Definition not_found : fetch_outcome RecipeDetail :=
  HttpResponse 200 (JsonBody (mkApiResponse None)).

Definition found_example : fetch_outcome RecipeDetail :=
  HttpResponse 200 (JsonBody (mkApiResponse (Some [example_detail]))).

Definition showing_Y : app_state :=
  initial_state
    |> setRecipes [recipeX; recipeY]
    |> handleRecipeClick_call recipeX
    |> closeModal
    |> handleRecipeClick_call recipeY
    |> fetchRecipeDetails_settle found_example.

(** The example record with a slot 21 and a slot 0 added. *)
Definition example_detail_extended : RecipeDetail :=
  <["strIngredient21" := JString "salt"]>
    (<["strMeasure21" := JString "1 pinch"]>
       (<["strIngredient0" := JString "pepper"]> example_detail)).

(** The endpoint answers with an empty array instead of [null]. *)
Definition netEmptyArray (i : nat) : fetch_outcome RecipeSummary :=
  HttpResponse 200 (JsonBody (mkApiResponse (Some []))).

(** The component after a click on the suggestion [chicken], and after
    the response to that search has arrived with three recipes. *)
Definition after_suggestion : app :=
  mkApp (fst (handleSuggestionClick "chicken" (ui mounted)))
    (option_list (snd (handleSuggestionClick "chicken" (ui mounted)))) 0.

Definition after_results : app :=
  mkApp (fst (searchRecipes_step (fun _ => netAB 0)
                (ui after_suggestion, Some (AwaitFetch "chicken")) 0))
    [] 0.




(** Term A matches, term B is answered with an empty array. *)
Definition upstreamEmptyB (i : nat) : list RecipeSummary :=
  match i with
  | 0 => [recipeX; recipeY; recipeZ]
  | _ => []
  end.

Definition netEmptyB (i : nat) : fetch_outcome RecipeSummary :=
  HttpResponse 200 (JsonBody (mkApiResponse (Some (upstreamEmptyB i)))).

(* ================================================================== *)
(** * Part II: properties *)
(* ================================================================== *)

(** ** Strings *)

Section Strings.

Lemma append_nil_l (s : string) : "" +:+ s = s.
Proof. reflexivity. Qed.

Lemma append_cons (c : ascii) (s t : string) :
  String c s +:+ t = String c (s +:+ t).
Proof. reflexivity. Qed.

Lemma append_nil_r (s : string) : s +:+ "" = s.
Proof.
  induction s as [|c s IH]; [reflexivity |].
  now rewrite append_cons, IH.
Qed.

Lemma append_assoc (a b c : string) : (a +:+ b) +:+ c = a +:+ (b +:+ c).
Proof.
  induction a as [|x a IH]; [reflexivity |].
  now rewrite !append_cons, IH.
Qed.

Lemma all_whitespace_app (a b : string) :
  all_whitespace (a +:+ b) = all_whitespace a && all_whitespace b.
Proof.
  induction a as [|x a IH]; [reflexivity |].
  rewrite append_cons. simpl. rewrite IH. now rewrite andb_assoc.
Qed.

Lemma trimStart_decompose (s : string) :
  exists l, s = l +:+ trimStart s /\ all_whitespace l = true.
Proof.
  induction s as [|c s [l [Hs Hl]]]; simpl.
  - exists "". split; reflexivity.
  - destruct (is_whitespace c) eqn:Hc.
    + exists (String c l). rewrite append_cons. simpl. rewrite Hc, Hl.
      split; [congruence | reflexivity].
    + exists "". split; reflexivity.
Qed.

Lemma trimStart_first (s : string) (c : ascii) :
  first_char (trimStart s) = Some c -> is_whitespace c = false.
Proof.
  induction s as [|x s IH]; simpl; [discriminate |].
  destruct (is_whitespace x) eqn:Hx; [exact IH |].
  simpl. intros [= <-]. exact Hx.
Qed.

Lemma trimStart_nil_iff (s : string) :
  trimStart s = "" <-> all_whitespace s = true.
Proof.
  induction s as [|x s IH]; simpl; [tauto |].
  destruct (is_whitespace x); simpl; [exact IH |].
  split; discriminate.
Qed.

Lemma trimEnd_nil_iff (s : string) :
  trimEnd s = "" <-> all_whitespace s = true.
Proof.
  induction s as [|x s IH]; simpl; [tauto |].
  destruct (trimEnd s) as [|y t] eqn:E.
  - assert (Hs : all_whitespace s = true) by now apply IH.
    rewrite Hs, andb_true_r.
    destruct (is_whitespace x); split; congruence.
  - split; [discriminate |].
    intros H. apply andb_true_iff in H as [_ H].
    apply IH in H. discriminate.
Qed.

Lemma trimEnd_decompose (s : string) :
  exists r, s = trimEnd s +:+ r /\ all_whitespace r = true.
Proof.
  induction s as [|c s [r [Hs Hr]]]; simpl.
  - exists "". split; reflexivity.
  - destruct (trimEnd s) as [|y t] eqn:E.
    + destruct (is_whitespace c) eqn:Hc.
      * exists (String c r). rewrite append_nil_l in *. simpl. rewrite Hc, Hr.
        split; [congruence | reflexivity].
      * exists r. rewrite append_nil_l in Hs. rewrite append_cons, append_nil_l.
        split; [congruence | exact Hr].
    + exists r. rewrite append_cons. split; [congruence | exact Hr].
Qed.

Lemma trimEnd_last (s : string) (c : ascii) :
  last_char (trimEnd s) = Some c -> is_whitespace c = false.
Proof.
  induction s as [|x s IH]; simpl; [discriminate |].
  destruct (trimEnd s) as [|y t] eqn:E.
  - destruct (is_whitespace x) eqn:Hx; simpl; [discriminate |].
    intros [= <-]. exact Hx.
  - exact IH.
Qed.

Lemma trimEnd_first (s : string) (c : ascii) :
  first_char (trimEnd s) = Some c -> first_char s = Some c.
Proof.
  destruct s as [|x s]; simpl; [discriminate |].
  destruct (trimEnd s); [destruct (is_whitespace x) |]; simpl; congruence.
Qed.

Lemma trim_nil_iff (s : string) : trim s = "" <-> all_whitespace s = true.
Proof.
  unfold trim. rewrite trimEnd_nil_iff.
  destruct (trimStart_decompose s) as [l [Hs Hl]].
  rewrite Hs at 2. rewrite all_whitespace_app, Hl. reflexivity.
Qed.

Lemma truthy_trim (s : string) : truthy (trim s) = negb (all_whitespace s).
Proof.
  destruct (all_whitespace s) eqn:H; simpl.
  - apply trim_nil_iff in H. now rewrite H.
  - destruct (trim s) eqn:E; [| reflexivity].
    apply trim_nil_iff in E. congruence.
Qed.

Lemma trim_trimmed (s : string) : trimmed (trim s).
Proof.
  split; intros c Hc.
  - apply trimEnd_first in Hc. now apply trimStart_first in Hc.
  - now apply trimEnd_last in Hc.
Qed.

Lemma trimmed_not_blank (s : string) :
  s <> "" -> trimmed s -> all_whitespace s = false.
Proof.
  intros Hs [Hfirst _]. destruct s as [|c s]; [congruence |].
  simpl. now rewrite (Hfirst c eq_refl).
Qed.

Lemma trim_decompose (s : string) :
  exists l r, s = l +:+ trim s +:+ r /\
              all_whitespace l = true /\ all_whitespace r = true.
Proof.
  destruct (trimStart_decompose s) as [l [Hs Hl]].
  destruct (trimEnd_decompose (trimStart s)) as [r [Ht Hr]].
  exists l, r. unfold trim. rewrite <- Ht. auto.
Qed.

Lemma substring_of_refl (s : string) : substring_of s s.
Proof. exists "", "". now rewrite append_nil_r. Qed.

Lemma substring_of_trans (a b c : string) :
  substring_of a b -> substring_of b c -> substring_of a c.
Proof.
  intros [p1 [q1 ->]] [p2 [q2 ->]].
  exists (p2 +:+ p1), (q1 +:+ q2). now rewrite !append_assoc.
Qed.

Lemma substring_of_app_l (t a b : string) :
  substring_of t a -> substring_of t (a +:+ b).
Proof.
  intros [p [q ->]]. exists p, (q +:+ b). now rewrite !append_assoc.
Qed.

Lemma substring_of_app_r (t a b : string) :
  substring_of t b -> substring_of t (a +:+ b).
Proof.
  intros [p [q ->]]. exists (a +:+ p), q. now rewrite !append_assoc.
Qed.

Lemma trim_substring (s : string) : substring_of (trim s) s.
Proof. destruct (trim_decompose s) as [l [r [H _]]]. now exists l, r. Qed.

(** *** [split] and [join] *)

Lemma split_nonempty (sep : ascii) (s : string) : split sep s <> [].
Proof.
  destruct s as [|c s]; simpl; [discriminate |].
  destruct (Ascii.eqb c sep); [discriminate |].
  destruct (split sep s); discriminate.
Qed.

Lemma split_no_sep (sep : ascii) (s : string) :
  Forall (fun piece => contains_char sep piece = false) (split sep s).
Proof.
  induction s as [|c s IH]; simpl.
  - constructor; [reflexivity | constructor].
  - destruct (Ascii.eqb c sep) eqn:Hc.
    + constructor; [reflexivity | exact IH].
    + destruct (split sep s) as [|piece rest].
      * constructor; [simpl; now rewrite Hc | constructor].
      * inversion IH; subst. constructor; [simpl; now rewrite Hc | assumption].
Qed.

Lemma join_cons_cons (sep x y : string) (l : list string) :
  join sep (x :: y :: l) = x +:+ sep +:+ join sep (y :: l).
Proof. reflexivity. Qed.

Lemma join_split (sep : ascii) (s : string) :
  join (String sep "") (split sep s) = s.
Proof.
  induction s as [|c s IH]; simpl; [reflexivity |].
  destruct (Ascii.eqb c sep) eqn:Hc.
  - apply Ascii.eqb_eq in Hc. subst c.
    pose proof (split_nonempty sep s) as Hne.
    destruct (split sep s) as [|y l]; [congruence |].
    rewrite join_cons_cons, IH. reflexivity.
  - pose proof (split_nonempty sep s) as Hne.
    destruct (split sep s) as [|y l]; [congruence |].
    destruct l as [|z l].
    + simpl in *. congruence.
    + rewrite join_cons_cons in *. rewrite append_cons. congruence.
Qed.

Lemma split_no_sep_id (sep : ascii) (x : string) :
  contains_char sep x = false -> split sep x = [x].
Proof.
  induction x as [|c x IH]; simpl; [reflexivity |].
  intros H. apply orb_false_iff in H as [Hc Hx].
  rewrite Hc, (IH Hx). reflexivity.
Qed.

Lemma split_app_sep (sep : ascii) (x t : string) :
  contains_char sep x = false ->
  split sep (x +:+ String sep t) = x :: split sep t.
Proof.
  induction x as [|c x IH]; intros H.
  - rewrite append_nil_l. simpl. now rewrite Ascii.eqb_refl.
  - simpl in H. apply orb_false_iff in H as [Hc Hx].
    rewrite append_cons. simpl. rewrite Hc, (IH Hx). reflexivity.
Qed.

(** [split] is the only way to cut a text at its separators. *)
Lemma split_join (sep : ascii) (pieces : list string) :
  pieces <> [] ->
  Forall (fun piece => contains_char sep piece = false) pieces ->
  split sep (join (String sep "") pieces) = pieces.
Proof.
  induction pieces as [|x l IH]; [congruence |].
  intros _ Hall. inversion Hall as [|? ? Hx Hl]; subst.
  destruct l as [|y l].
  - simpl. now apply split_no_sep_id.
  - rewrite join_cons_cons, append_cons, append_nil_l.
    rewrite (split_app_sep _ _ _ Hx), IH; [reflexivity | discriminate | exact Hl].
Qed.

Lemma substring_of_join (sep x : string) (l : list string) :
  In x l -> substring_of x (join sep l).
Proof.
  induction l as [|y l IH]; [intros [] |].
  intros [-> | Hin].
  - destruct l as [|z l]; [apply substring_of_refl |].
    rewrite join_cons_cons. apply substring_of_app_l, substring_of_refl.
  - destruct l as [|z l]; [destruct Hin |].
    rewrite join_cons_cons.
    apply substring_of_app_r, substring_of_app_r, IH, Hin.
Qed.

Lemma substring_of_split (sep : ascii) (piece s : string) :
  In piece (split sep s) -> substring_of piece s.
Proof.
  intros Hin. rewrite <- (join_split sep s) at 1.
  now apply substring_of_join.
Qed.

End Strings.

(** ** formatInstructions *)

Section FormatInstructions.

Lemma filter_truthy_trim (lines : list string) :
  List.filter (fun step => truthy (trim step)) lines =
  List.filter (fun line => negb (all_whitespace line)) lines.
Proof.
  induction lines as [|x l IH]; simpl; [reflexivity |].
  now rewrite truthy_trim, IH.
Qed.

Lemma formatInstructions_lines (s : string) :
  formatInstructions (Some s) =
  map trim (List.filter (fun line => negb (all_whitespace line)) (split LF s)).
Proof.
  unfold formatInstructions. destruct s as [|c s]; [reflexivity |].
  cbn [truthy]. now rewrite filter_truthy_trim.
Qed.

Lemma formatInstructions_steps (s : string) :
  Forall (fun step => step <> "" /\ trimmed step) (formatInstructions (Some s)).
Proof.
  rewrite formatInstructions_lines.
  induction (split LF s) as [|x l IH]; simpl; [constructor |].
  destruct (all_whitespace x) eqn:Hx; simpl; [exact IH |].
  constructor; [| exact IH]. split; [| apply trim_trimmed].
  intros H. apply trim_nil_iff in H. congruence.
Qed.

(** A carriage return before the line break is whitespace at the end of
    its line, so CR LF line ends give the same steps. *)
Lemma formatInstructions_crlf :
  formatInstructions (Some example_instructions_crlf) = ["Step one."; "Step two."].
Proof. reflexivity. Qed.

(** C7.  [formatInstructions] returns the empty sequence for [null] and
    for the empty string.  Otherwise, whenever the text is the sequence
    [lines] of break-free lines separated by line breaks, the result is
    the sequence of the trimmed non-blank lines, in the order of the
    text: blank lines are dropped and every step is non-empty and
    trimmed.  On the example text the result is exactly
    [Step one.], [Step two.]. *)
Theorem formatInstructions_correct :
  formatInstructions None = [] /\
  formatInstructions (Some "") = [] /\
  (forall lines : list string,
      lines <> [] ->
      Forall (fun line => contains_char LF line = false) lines ->
      formatInstructions (Some (join line_break lines)) =
        map trim (List.filter (fun line => negb (all_whitespace line)) lines) /\
      Forall (fun step => step <> "" /\ trimmed step)
        (formatInstructions (Some (join line_break lines)))) /\
  formatInstructions (Some example_instructions) = ["Step one."; "Step two."].
Proof.
  split; [reflexivity |]. split; [reflexivity |]. split; [| reflexivity].
  intros lines Hne Hlines. split; [| apply formatInstructions_steps].
  rewrite formatInstructions_lines. unfold line_break.
  now rewrite split_join.
Qed.

Lemma formatInstructions_correct_witness :
  formatInstructions (Some example_instructions) =
    map trim (List.filter (fun line => negb (all_whitespace line))
                ["Step one."; ""; "Step two."; "  "]).
Proof.
  destruct formatInstructions_correct as (_ & _ & H & _).
  refine (proj1 (H ["Step one."; ""; "Step two."; "  "] _ _)).
  - discriminate.
  - repeat constructor.
Defined.

End FormatInstructions.

(** ** extractIngredients *)

Section ExtractIngredients.

Variable d : RecipeDetail.

Lemma all_whitespace_truthy (s : string) :
  all_whitespace s = false -> truthy s = true.
Proof. destruct s; [discriminate | reflexivity]. Qed.

Lemma extract_step_spec (acc : list IngredientLine) (i : nat) :
  extract_step d acc i = acc ++ option_list (spec_slot_line d i).
Proof.
  unfold extract_step, spec_slot_line, slot_name, slot_measure,
    ingredient_present, measure_or_empty.
  destruct (d !! ("strIngredient" +:+ string_of_nat i)) as [[|name]|];
    simpl; try now rewrite app_nil_r.
  rewrite truthy_trim.
  destruct (all_whitespace name) eqn:Hname.
  - rewrite andb_false_r. simpl. now rewrite app_nil_r.
  - rewrite (all_whitespace_truthy _ Hname). simpl.
    destruct (d !! ("strMeasure" +:+ string_of_nat i)) as [[|m]|]; simpl;
      try reflexivity.
    now destruct m.
Qed.

Lemma extract_loop_spec (slots : list nat) (acc : list IngredientLine) :
  foldl (extract_step d) acc slots = acc ++ omap (spec_slot_line d) slots.
Proof.
  revert acc. induction slots as [|i slots IH]; intros acc; simpl.
  - now rewrite app_nil_r.
  - rewrite IH, extract_step_spec, <- app_assoc. f_equal.
    now destruct (spec_slot_line d i).
Qed.

Lemma extractIngredients_spec :
  extractIngredients d = omap (spec_slot_line d) (seq 1 20).
Proof. unfold extractIngredients. now rewrite extract_loop_spec. Qed.

Lemma spec_slot_line_name (i : nat) (e : IngredientLine) :
  spec_slot_line d i = Some e ->
  ingredient e <> "" /\ all_whitespace (ingredient e) = false.
Proof.
  unfold spec_slot_line. destruct (slot_name d i) as [name|]; [| discriminate].
  destruct (all_whitespace name) eqn:Hname; [discriminate |].
  intros [= <-]. simpl.
  assert (Hne : trim name <> "").
  { intros H. apply trim_nil_iff in H. congruence. }
  split; [exact Hne |].
  apply trimmed_not_blank; [exact Hne | apply trim_trimmed].
Qed.

Lemma omap_names (slots : list nat) :
  Forall (fun e => ingredient e <> "" /\ all_whitespace (ingredient e) = false)
    (omap (spec_slot_line d) slots).
Proof.
  induction slots as [|i slots IH]; simpl; [constructor |].
  destruct (spec_slot_line d i) as [e|] eqn:He; [| exact IH].
  constructor; [now apply (spec_slot_line_name i) | exact IH].
Qed.

Lemma omap_length_le (slots : list nat) :
  length (omap (spec_slot_line d) slots) <= length slots.
Proof.
  induction slots as [|i slots IH]; simpl; [lia |].
  change (list_omap nat IngredientLine) with (@omap list _ nat IngredientLine).
  destruct (spec_slot_line d i); simpl; lia.
Qed.

Lemma omap_cons_Some {A B : Type} (f : A -> option B) (x : A) (l : list A) (y : B) :
  f x = Some y -> omap f (x :: l) = y :: omap f l.
Proof. intros H. cbn [omap list_omap]. now rewrite H. Qed.

Lemma omap_cons_None {A B : Type} (f : A -> option B) (x : A) (l : list A) :
  f x = None -> omap f (x :: l) = omap f l.
Proof. intros H. cbn [omap list_omap]. now rewrite H. Qed.

Lemma slot_empty_no_line (i : nat) : slot_empty d i -> spec_slot_line d i = None.
Proof.
  unfold slot_empty, spec_slot_line.
  destruct (slot_name d i) as [name|]; [| reflexivity].
  now intros ->.
Qed.

(** C6.  [extractIngredients] visits slots 1 to 20 in ascending order and
    emits, for each slot whose name is present and not blank, the entry
    with the trimmed name and the trimmed measure (the empty string when
    the measure is absent), and nothing for the other slots.  No entry
    has a blank name, there are at most 20 entries, and a record whose
    slots 1, 3 and 5 are populated and whose other slots are empty gives
    exactly the three entries of slots 1, 3, 5 in that order. *)
Theorem extractIngredients_correct :
  extractIngredients d = omap (spec_slot_line d) (seq 1 20) /\
  Forall (fun e => ingredient e <> "" /\ all_whitespace (ingredient e) = false)
    (extractIngredients d) /\
  length (extractIngredients d) <= 20 /\
  (forall e1 e3 e5 : IngredientLine,
      spec_slot_line d 1 = Some e1 ->
      spec_slot_line d 3 = Some e3 ->
      spec_slot_line d 5 = Some e5 ->
      (forall i, 1 <= i <= 20 -> i <> 1 -> i <> 3 -> i <> 5 -> slot_empty d i) ->
      extractIngredients d = [e1; e3; e5]).
Proof.
  rewrite extractIngredients_spec.
  split; [reflexivity |]. split; [apply omap_names |].
  split; [apply (omap_length_le (seq 1 20)) |].
  intros e1 e3 e5 H1 H3 H5 Hempty.
  assert (Hnone : forall i, 1 <= i <= 20 -> i <> 1 -> i <> 3 -> i <> 5 ->
                            spec_slot_line d i = None).
  { intros i ? ? ? ?. apply slot_empty_no_line. now apply Hempty. }
  change (seq 1 20) with
    [1; 2; 3; 4; 5; 6; 7; 8; 9; 10; 11; 12; 13; 14; 15; 16; 17; 18; 19; 20].
  rewrite (omap_cons_Some _ _ _ _ H1), (omap_cons_None _ 2) by (apply Hnone; lia).
  rewrite (omap_cons_Some _ _ _ _ H3), (omap_cons_None _ 4) by (apply Hnone; lia).
  rewrite (omap_cons_Some _ _ _ _ H5).
  repeat (rewrite omap_cons_None by (apply Hnone; lia)).
  reflexivity.
Qed.

End ExtractIngredients.

Lemma extractIngredients_correct_witness :
  extractIngredients example_detail =
    [ mkIngredientLine "soy sauce" "3/4 cup";
      mkIngredientLine "water" "";
      mkIngredientLine "brown sugar" "1/4 cup" ].
Proof.
  destruct (extractIngredients_correct example_detail) as (_ & _ & _ & H).
  apply H; try (vm_compute; reflexivity).
  intros i Hi H1 H3 H5.
  assert (Hcases : In i (seq 1 20)) by (apply in_seq; lia).
  cbn [seq In] in Hcases.
  repeat (destruct Hcases as [<- | Hcases]; [try congruence; vm_compute; auto |]).
  destruct Hcases.
Defined.

(** ** The search machine *)

Section SearchMachine.

Variable net : nat -> fetch_outcome RecipeSummary.

Lemma searchRecipes_call_blank (query : string) (st : app_state) :
  truthy (trim query) = false -> searchRecipes_call query st = (st, None).
Proof. unfold searchRecipes_call. now intros ->. Qed.

Lemma searchRecipes_call_single (query : string) (st : app_state) :
  truthy (trim query) = true ->
  length (parse_ingredients query) = 1 ->
  searchRecipes_call query st = (search_reset st, Some (AwaitFetch query)).
Proof. unfold searchRecipes_call. now intros -> ->. Qed.

Lemma searchRecipes_call_multi (query : string) (st : app_state) :
  truthy (trim query) = true ->
  length (parse_ingredients query) <> 1 ->
  searchRecipes_call query st =
    resume_all (parse_ingredients query)
      (replicate (length (parse_ingredients query)) None) (search_reset st).
Proof.
  unfold searchRecipes_call. intros -> Hlen.
  apply Nat.eqb_neq in Hlen. now rewrite Hlen.
Qed.

(** A finished search ignores every later settlement. *)
Lemma run_finished (st : app_state) (order : list nat) :
  foldl (searchRecipes_step net) (st, None) order = (st, None).
Proof. induction order as [|i order IH]; simpl; [reflexivity | exact IH]. Qed.

(** *** The slots of [Promise.all] *)

Variable dat : nat -> ApiResponse RecipeSummary.

Lemma fulfilled_slots_lookup (n : nat) (settled : list nat) (i : nat) :
  i < n ->
  fulfilled_slots dat n settled !! i =
    Some (if bool_decide (i ∈ settled) then Some (dat i) else None).
Proof.
  intros Hi. unfold fulfilled_slots.
  rewrite list_lookup_fmap, lookup_seq_lt by exact Hi. reflexivity.
Qed.

Lemma fulfilled_slots_length (n : nat) (settled : list nat) :
  length (fulfilled_slots dat n settled) = n.
Proof. unfold fulfilled_slots. now rewrite length_fmap, length_seq. Qed.

Lemma fulfilled_slots_nil (n : nat) :
  fulfilled_slots dat n [] = replicate n None.
Proof.
  apply list_eq. intros i. destruct (decide (i < n)) as [Hi|Hi].
  - rewrite fulfilled_slots_lookup, lookup_replicate_2 by exact Hi.
    rewrite bool_decide_eq_false_2; [reflexivity | apply not_elem_of_nil].
  - rewrite !(proj2 (lookup_ge_None _ _)); [reflexivity | |].
    + rewrite length_replicate. lia.
    + rewrite fulfilled_slots_length. lia.
Qed.

Lemma fulfilled_slots_insert (n : nat) (settled : list nat) (i : nat) :
  i < n ->
  <[i := Some (dat i)]> (fulfilled_slots dat n settled) =
    fulfilled_slots dat n (settled ++ [i]).
Proof.
  intros Hi. apply list_eq. intros j.
  destruct (decide (j < n)) as [Hj|Hj].
  - rewrite (fulfilled_slots_lookup n (settled ++ [i]) j Hj).
    destruct (decide (i = j)) as [<-|Hne].
    + rewrite list_lookup_insert_eq by (rewrite fulfilled_slots_length; lia).
      rewrite bool_decide_eq_true_2; [reflexivity |].
      apply elem_of_app. right. apply list_elem_of_singleton. reflexivity.
    + rewrite list_lookup_insert_ne by exact Hne.
      rewrite fulfilled_slots_lookup by exact Hj.
      rewrite (bool_decide_ext (j ∈ settled ++ [i]) (j ∈ settled)); [reflexivity |].
      rewrite elem_of_app, list_elem_of_singleton. intuition congruence.
  - rewrite !(proj2 (lookup_ge_None _ _)); [reflexivity | |].
    + rewrite fulfilled_slots_length. lia.
    + rewrite length_insert, fulfilled_slots_length. lia.
Qed.

Lemma fulfilled_slots_complete (n : nat) (settled : list nat) :
  (forall i, i < n -> i ∈ settled) ->
  mapM (fun x : option (ApiResponse RecipeSummary) => x)
    (fulfilled_slots dat n settled) = Some (map dat (seq 0 n)).
Proof.
  intros Hall. unfold fulfilled_slots.
  change (map dat (seq 0 n)) with (dat <$> seq 0 n).
  apply mapM_Some_2, Forall2_fmap, Forall2_same_length_lookup.
  split; [reflexivity |].
  intros i x y Hx Hy. rewrite Hx in Hy. injection Hy as <-.
  apply lookup_seq in Hx as [-> Hi]. simpl.
  rewrite bool_decide_eq_true_2; [reflexivity | now apply Hall].
Qed.

Lemma fulfilled_slots_pending (n : nat) (settled : list nat) (i : nat) :
  i < n -> i ∉ settled ->
  mapM (fun x : option (ApiResponse RecipeSummary) => x)
    (fulfilled_slots dat n settled) = None.
Proof.
  intros Hi Hnot. apply mapM_None_2, Exists_exists.
  exists None. split; [| reflexivity].
  apply list_elem_of_lookup. exists i.
  rewrite fulfilled_slots_lookup by exact Hi.
  now rewrite bool_decide_eq_false_2.
Qed.

(** *** Runs of the multi-term branch *)

Variable ingredients : list string.

Local Abbreviation n := (length ingredients).
Local Abbreviation fulfilled_requests := (fulfilled_requests net dat n).

Lemma resume_all_pending (settled : list nat) (i : nat) (st : app_state) :
  i < n -> i ∉ settled ->
  resume_all ingredients (fulfilled_slots dat n settled) st =
    (st, Some (AwaitAll ingredients (fulfilled_slots dat n settled))).
Proof.
  intros Hi Hnot. unfold resume_all.
  now rewrite (fulfilled_slots_pending n settled i Hi Hnot).
Qed.

Lemma resume_all_complete (settled : list nat) (st : app_state) :
  (forall i, i < n -> i ∈ settled) ->
  resume_all ingredients (fulfilled_slots dat n settled) st =
    (search_try (multi_term_body ingredients (map dat (seq 0 n))) st, None).
Proof.
  intros Hall. unfold resume_all.
  now rewrite (fulfilled_slots_complete n settled Hall).
Qed.

Lemma run_fulfilled (order settled : list nat) (st : app_state) :
  NoDup (settled ++ order) ->
  fulfilled_requests order ->
  foldl (searchRecipes_step net)
    (resume_all ingredients (fulfilled_slots dat n settled) st) order =
  resume_all ingredients (fulfilled_slots dat n (settled ++ order)) st.
Proof.
  revert settled. induction order as [|i order IH]; intros settled Hnd Hok.
  - now rewrite app_nil_r.
  - destruct (Hok i) as [Hi Hsettle]; [left |].
    assert (Hnot : i ∉ settled).
    { apply NoDup_app in Hnd as (_ & Hdisj & _).
      intros Hin. apply (Hdisj i Hin). left. }
    rewrite (resume_all_pending settled i st Hi Hnot).
    cbn [foldl searchRecipes_step].
    rewrite (fulfilled_slots_lookup n settled i Hi).
    rewrite bool_decide_eq_false_2 by exact Hnot.
    rewrite Hsettle, (fulfilled_slots_insert n settled i Hi).
    rewrite IH.
    + now rewrite <- app_assoc.
    + now rewrite <- app_assoc.
    + intros j Hj. apply Hok. now right.
Qed.

Lemma run_multi_pending (order : list nat) (i : nat) (st : app_state) :
  NoDup order -> fulfilled_requests order -> i < n -> i ∉ order ->
  foldl (searchRecipes_step net)
    (resume_all ingredients (replicate n None) st) order =
  (st, Some (AwaitAll ingredients (fulfilled_slots dat n order))).
Proof.
  intros Hnd Hok Hi Hnot.
  rewrite <- fulfilled_slots_nil, run_fulfilled by assumption.
  now apply (resume_all_pending _ i).
Qed.

Lemma run_multi_complete (order : list nat) (st : app_state) :
  NoDup order -> fulfilled_requests order -> (forall i, i < n -> i ∈ order) ->
  foldl (searchRecipes_step net)
    (resume_all ingredients (replicate n None) st) order =
  (search_try (multi_term_body ingredients (map dat (seq 0 n))) st, None).
Proof.
  intros Hnd Hok Hall.
  rewrite <- fulfilled_slots_nil, run_fulfilled by assumption.
  now apply resume_all_complete.
Qed.

Lemma run_multi_rejected (pre post : list nat) (i : nat) (err : js_error)
    (st : app_state) :
  NoDup pre -> fulfilled_requests pre -> i < n -> i ∉ pre ->
  settle (net i) = inl err ->
  foldl (searchRecipes_step net)
    (resume_all ingredients (replicate n None) st) (pre ++ i :: post) =
  (search_try (fun _ => throw err) st, None).
Proof.
  intros Hnd Hok Hi Hnot Herr.
  rewrite foldl_app, (run_multi_pending pre i st Hnd Hok Hi Hnot).
  cbn [foldl searchRecipes_step].
  rewrite (fulfilled_slots_lookup n pre i Hi).
  rewrite bool_decide_eq_false_2 by exact Hnot.
  rewrite Herr. apply run_finished.
Qed.

End SearchMachine.

(** ** The intersection of the result lists *)

Section Intersection.

Lemma mapM_result_inr {A B : Type} (f : A -> result B) (g : A -> B) (l : list A) :
  (forall x, x ∈ l -> f x = inr (g x)) -> mapM f l = inr (map g l).
Proof.
  induction l as [|x l IH]; intros Hf; [reflexivity |].
  cbn [mapM map]. rewrite (Hf x) by left.
  unfold mbind at 1, result_bind at 1.
  rewrite IH by (intros y Hy; apply Hf; now right).
  reflexivity.
Qed.

Lemma some_null_false (results : list (ApiResponse RecipeSummary)) :
  some_null results = false -> exists lists, results = matched lists.
Proof.
  induction results as [|[ms] results IH]; intros H.
  - now exists [].
  - unfold some_null in H. cbn [existsb] in H.
    apply orb_false_iff in H as [Hr Hrest].
    destruct (IH Hrest) as [lists ->].
    destruct ms as [l|]; [| discriminate].
    now exists (l :: lists).
Qed.

Lemma some_null_matched (lists : list (list RecipeSummary)) :
  some_null (matched lists) = false.
Proof. induction lists as [|l lists IH]; [reflexivity | exact IH]. Qed.

Lemma some_null_true (results : list (ApiResponse RecipeSummary))
    (r : ApiResponse RecipeSummary) :
  r ∈ results -> meals r = None -> some_null results = true.
Proof.
  intros Hin Hr. apply existsb_exists. exists r.
  split; [now apply list_elem_of_In | now rewrite Hr].
Qed.

Lemma id_sets_matched (lists : list (list RecipeSummary)) :
  id_sets (matched lists) =
    inr (map (fun l => list_to_set (map idMeal l)) lists).
Proof.
  unfold id_sets, matched.
  rewrite (mapM_result_inr _ (fun r => list_to_set (map idMeal (default [] (meals r))))).
  - now rewrite map_map.
  - intros r Hr. apply list_elem_of_In, in_map_iff in Hr as [l [<- _]].
    reflexivity.
Qed.

Lemma existsb_id_set (id : string) (ids : list string) :
  bool_decide (id ∈ (list_to_set ids : gset string)) = existsb (String.eqb id) ids.
Proof.
  apply Bool.eq_iff_eq_true.
  rewrite bool_decide_eq_true, elem_of_list_to_set, list_elem_of_In, existsb_exists.
  split.
  - intros Hin. exists id. split; [exact Hin | apply String.eqb_refl].
  - intros [x [Hin Heq]]. apply String.eqb_eq in Heq. now subst.
Qed.

Lemma in_every_id_set (lists : list (list RecipeSummary)) (m : RecipeSummary) :
  forallb (fun s : gset string => bool_decide (idMeal m ∈ s))
    (map (fun l => list_to_set (map idMeal l)) lists)
  = in_every_result lists m.
Proof.
  unfold in_every_result.
  induction lists as [|l lists IH]; [reflexivity |].
  cbn [map forallb]. now rewrite IH, existsb_id_set.
Qed.

Lemma common_ids_matched (lists : list (list RecipeSummary))
    (firstList : list RecipeSummary) :
  common_ids (map (fun l => list_to_set (map idMeal l)) lists) firstList =
    map idMeal (List.filter (in_every_result lists) firstList).
Proof.
  unfold common_ids.
  induction firstList as [|m l IH]; [reflexivity |].
  cbn [map List.filter]. rewrite IH.
  rewrite in_every_id_set. now destruct (in_every_result lists m).
Qed.

(** *** The map of the first list *)

Local Abbreviation set_pair :=
  (fun (m : gmap string RecipeSummary) (p : string * RecipeSummary) => <[p.1 := p.2]> m).

Lemma js_Map_other (pairs : list (string * RecipeSummary))
    (m0 : gmap string RecipeSummary) (k : string) :
  ~ In k (map fst pairs) -> foldl set_pair m0 pairs !! k = m0 !! k.
Proof.
  revert m0. induction pairs as [|[k' v] pairs IH]; intros m0 Hk; [reflexivity |].
  cbn [foldl]. rewrite IH.
  - apply lookup_insert_ne. intros Heq. apply Hk. left. exact Heq.
  - intros Hin. apply Hk. now right.
Qed.

Lemma js_Map_member (pairs : list (string * RecipeSummary))
    (m0 : gmap string RecipeSummary) (k : string) :
  In k (map fst pairs) ->
  exists v, In (k, v) pairs /\ foldl set_pair m0 pairs !! k = Some v.
Proof.
  revert m0. induction pairs as [|[k' v] pairs IH]; intros m0 Hk; [destruct Hk |].
  cbn [foldl].
  destruct (in_dec string_dec k (map fst pairs)) as [Hin|Hout].
  - destruct (IH (<[k' := v]> m0) Hin) as [v' [Hv' Hl]].
    exists v'. split; [now right | exact Hl].
  - destruct Hk as [Hk|Hk]; [| contradiction].
    simpl in Hk. subst k'.
    exists v. split; [now left |].
    rewrite js_Map_other by exact Hout. apply lookup_insert_eq.
Qed.

Lemma meal_map_pairs (firstList : list RecipeSummary) :
  map fst (map (fun m => (idMeal m, m)) firstList) = map idMeal firstList.
Proof. rewrite map_map. reflexivity. Qed.

(** Every identifier of the first list is a key of the map, and the
    recipe stored under a key carries that identifier. *)
Lemma meal_map_member (firstList : list RecipeSummary) (id : string) :
  In id (map idMeal firstList) ->
  exists m, In m firstList /\ idMeal m = id /\ meal_map firstList !! id = Some m.
Proof.
  intros Hin. unfold meal_map, js_Map.
  rewrite <- meal_map_pairs in Hin.
  destruct (js_Map_member _ ∅ id Hin) as [m [Hm Hl]].
  apply in_map_iff in Hm as [m' [[= <- <-] Hm']].
  now exists m'.
Qed.

Lemma NoDup_ids_inj (l : list RecipeSummary) (m1 m2 : RecipeSummary) :
  NoDup (map idMeal l) -> In m1 l -> In m2 l -> idMeal m1 = idMeal m2 -> m1 = m2.
Proof.
  induction l as [|x l IH]; [intros _ [] |].
  cbn [map]. rewrite NoDup_cons. intros [Hx Hnd] H1 H2 Heq.
  assert (Hmem : forall m, In m l -> idMeal m ∈ map idMeal l).
  { intros m Hm. apply list_elem_of_In, in_map, Hm. }
  destruct H1 as [<-|H1], H2 as [<-|H2].
  - reflexivity.
  - exfalso. apply Hx. rewrite Heq. now apply Hmem.
  - exfalso. apply Hx. rewrite <- Heq. now apply Hmem.
  - now apply IH.
Qed.

(** When the identifiers of the first list are pairwise distinct, the
    map returns each recipe of the list under its own identifier. *)
Lemma meal_map_unique (firstList : list RecipeSummary) (m : RecipeSummary) :
  NoDup (map idMeal firstList) -> In m firstList ->
  meal_map firstList !! idMeal m = Some m.
Proof.
  intros Hnd Hm.
  destruct (meal_map_member firstList (idMeal m)) as [m' (Hm' & Hid & Hl)].
  { now apply in_map. }
  rewrite Hl. f_equal. now apply (NoDup_ids_inj firstList).
Qed.

(** *** The list [intersected] *)

Lemma resolve_meal_member (firstList : list RecipeSummary)
    (results : list (ApiResponse RecipeSummary)) (id : string) :
  In id (map idMeal firstList) ->
  exists m, meal_map firstList !! id = Some m /\ idMeal m = id /\
            resolve_meal (meal_map firstList) results id = inr (Some m).
Proof.
  intros Hin. destruct (meal_map_member firstList id Hin) as [m (_ & Hid & Hl)].
  exists m. unfold resolve_meal. now rewrite Hl.
Qed.

Lemma common_ids_subset (idSets : list (gset string))
    (firstList : list RecipeSummary) (id : string) :
  In id (common_ids idSets firstList) -> In id (map idMeal firstList).
Proof. unfold common_ids. intros H. now apply filter_In in H as [H _]. Qed.

Lemma omap_lookup_length (mm : gmap string RecipeSummary) (ids : list string) :
  (forall id, In id ids -> is_Some (mm !! id)) ->
  length (omap (fun x : option RecipeSummary => x) (map (fun id => mm !! id) ids))
    = length ids.
Proof.
  induction ids as [|id ids IH]; intros H; [reflexivity |].
  cbn [map omap list_omap].
  destruct (H id) as [m Hm]; [now left |]. rewrite Hm. cbn [length].
  f_equal. apply IH. intros id' Hid'. apply H. now right.
Qed.

Lemma omap_lookup_ids (mm : gmap string RecipeSummary) (ids : list string) :
  (forall id, In id ids -> exists m, mm !! id = Some m /\ idMeal m = id) ->
  map idMeal (omap (fun x : option RecipeSummary => x) (map (fun id => mm !! id) ids))
    = ids.
Proof.
  induction ids as [|id ids IH]; intros H; [reflexivity |].
  cbn [map omap list_omap].
  destruct (H id) as [m [Hm Hid]]; [now left |]. rewrite Hm. cbn [map].
  f_equal; [exact Hid |]. apply IH. intros id' Hid'. apply H. now right.
Qed.

Lemma omap_lookup_recipes (mm : gmap string RecipeSummary) (l : list RecipeSummary) :
  (forall m, In m l -> mm !! idMeal m = Some m) ->
  omap (fun x : option RecipeSummary => x) (map (fun id => mm !! id) (map idMeal l)) = l.
Proof.
  induction l as [|m l IH]; intros H; [reflexivity |].
  cbn [map omap list_omap]. rewrite (H m) by now left.
  f_equal. apply IH. intros m' Hm'. apply H. now right.
Qed.

(** The computation of lines 121-137 on responses that all matched: no
    step throws, and every retained identifier is found in the map. *)
Lemma intersect_matched (firstList : list RecipeSummary)
    (others : list (list RecipeSummary)) :
  let lists := firstList :: others in
  let commonIds := map idMeal (List.filter (in_every_result lists) firstList) in
  intersect (matched lists) =
    inr (omap (fun x : option RecipeSummary => x)
           (map (fun id => meal_map firstList !! id) commonIds)).
Proof.
  intros lists commonIds. unfold intersect.
  rewrite id_sets_matched.
  unfold mbind at 1, result_bind at 1.
  change (first_meals (matched lists)) with (inr (B:=list RecipeSummary) (A:=js_error) firstList).
  unfold mbind at 1, result_bind at 1.
  rewrite common_ids_matched. fold commonIds.
  rewrite (mapM_result_inr _ (fun id => meal_map firstList !! id)).
  - reflexivity.
  - intros id Hid. apply list_elem_of_In in Hid.
    destruct (resolve_meal_member firstList (matched lists) id) as [m (Hl & _ & Hr)].
    + unfold commonIds in Hid. apply in_map_iff in Hid as [m [<- Hm]].
      apply in_map. now apply filter_In in Hm as [Hm _].
    + now rewrite Hr, Hl.
Qed.

Lemma intersect_ids (lists : list (list RecipeSummary)) :
  lists <> [] ->
  exists intersected,
    intersect (matched lists) = inr intersected /\
    map idMeal intersected = map idMeal (spec_intersection lists).
Proof.
  destruct lists as [|firstList others]; [congruence |]. intros _.
  eexists. split; [apply intersect_matched |].
  cbn [spec_intersection]. apply omap_lookup_ids.
  intros id Hid.
  destruct (meal_map_member firstList id) as [m (_ & Hm & Hl)]; [| now exists m].
  apply in_map_iff in Hid as [m [<- Hm]].
  apply in_map. now apply filter_In in Hm as [Hm _].
Qed.

Lemma intersect_unique (lists : list (list RecipeSummary)) :
  lists <> [] ->
  NoDup (map idMeal (hd [] lists)) ->
  intersect (matched lists) = inr (spec_intersection lists).
Proof.
  destruct lists as [|firstList others]; [congruence |]. intros _ Hnd.
  rewrite intersect_matched. f_equal.
  cbn [spec_intersection]. apply omap_lookup_recipes.
  intros m Hm. apply meal_map_unique; [exact Hnd |].
  now apply filter_In in Hm as [Hm _].
Qed.

(** Without the uniqueness of the identifiers the recipes differ from the
    filtered list, though not their identifiers: of two records of the
    first list under one identifier, the map keeps the later one. *)
Lemma intersect_duplicate_ids :
  intersect (matched [[recipeX; recipeX']; [recipeX]]) = inr [recipeX'; recipeX'] /\
  spec_intersection [[recipeX; recipeX']; [recipeX]] = [recipeX; recipeX'].
Proof. split; reflexivity. Qed.

End Intersection.

(** ** Parsing the query *)

Section ParseIngredients.

Lemma all_whitespace_substring (t s : string) :
  substring_of t s -> all_whitespace s = true -> all_whitespace t = true.
Proof.
  intros [pre [post ->]]. rewrite !all_whitespace_app.
  intros H. apply andb_true_iff in H as [_ H].
  now apply andb_true_iff in H as [H _].
Qed.

Lemma parse_ingredients_In (query t : string) :
  In t (parse_ingredients query) ->
  exists piece, In piece (split comma query) /\ t = trim piece /\ t <> "".
Proof.
  unfold parse_ingredients. intros H.
  apply filter_In in H as [H Ht].
  apply in_map_iff in H as [piece [<- Hpiece]].
  exists piece. repeat split; [exact Hpiece |].
  intros Heq. now rewrite Heq in Ht.
Qed.

(** Every term is a non-empty, trimmed piece of the query. *)
Lemma parse_ingredients_terms (query : string) :
  Forall (fun t => t <> "" /\ trimmed t /\ substring_of t query)
    (parse_ingredients query).
Proof.
  apply Forall_forall. intros t Ht. apply list_elem_of_In in Ht.
  destruct (parse_ingredients_In query t Ht) as [piece (Hpiece & -> & Hne)].
  repeat split; [exact Hne | apply trim_trimmed | apply trim_trimmed |].
  apply (substring_of_trans _ piece); [apply trim_substring |].
  now apply (substring_of_split comma).
Qed.

(** A blank query has no terms. *)
Lemma parse_ingredients_blank (query : string) :
  truthy (trim query) = false -> parse_ingredients query = [].
Proof.
  intros Hblank. rewrite truthy_trim in Hblank.
  apply negb_false_iff in Hblank.
  destruct (parse_ingredients query) as [|t l] eqn:E; [reflexivity |].
  exfalso.
  destruct (parse_ingredients_In query t) as [piece (Hpiece & Ht & Hne)].
  { rewrite E. now left. }
  apply Hne. rewrite Ht. apply trim_nil_iff.
  apply (all_whitespace_substring piece query); [| exact Hblank].
  now apply (substring_of_split comma).
Qed.

Lemma parse_ingredients_truthy (query : string) :
  parse_ingredients query <> [] -> truthy (trim query) = true.
Proof.
  intros Hne. destruct (truthy (trim query)) eqn:E; [reflexivity |].
  now apply parse_ingredients_blank in E.
Qed.

End ParseIngredients.

(** ** Whole searches *)

Section SearchRuns.

Variable net : nat -> fetch_outcome RecipeSummary.
Variable query : string.
Variable st : app_state.

Local Abbreviation ings := (parse_ingredients query).
Local Abbreviation n := (length (parse_ingredients query)).

Lemma search_single (order : list nat) :
  truthy (trim query) = true -> n = 1 -> 0 ∈ order ->
  searchRecipes query net order st =
    (search_try (fun st => data ← settle (net 0); single_term_body query data st)
       (search_reset st), None).
Proof.
  intros Hq Hn Hin. unfold searchRecipes.
  rewrite (searchRecipes_call_single query st Hq Hn).
  induction order as [|i order IH]; [now apply not_elem_of_nil in Hin |].
  cbn [foldl searchRecipes_step].
  destruct i as [|i].
  - cbn [Nat.eqb]. apply run_finished.
  - cbn [Nat.eqb]. apply IH.
    apply elem_of_cons in Hin as [Hin|Hin]; [discriminate | exact Hin].
Qed.

Variable dat : nat -> ApiResponse RecipeSummary.


Lemma search_complete (order : list nat) :
  truthy (trim query) = true -> n <> 1 ->
  complete_schedule n order -> fulfilled_requests net dat n order ->
  searchRecipes query net order st =
    (search_try (multi_term_body ings (map dat (seq 0 n))) (search_reset st), None).
Proof.
  intros Hq Hn [Hnd Hall] Hok. unfold searchRecipes.
  rewrite (searchRecipes_call_multi query st Hq Hn).
  apply (run_multi_complete net dat ings order); [exact Hnd | exact Hok |].
  intros i Hi. now apply Hall.
Qed.

(** The first rejection decides the search: the handler runs on the
    state the requests were issued from. *)
Lemma search_rejected (pre post : list nat) (i : nat) (err : js_error) :
  truthy (trim query) = true ->
  NoDup pre -> fulfilled_requests net dat n pre -> i < n -> i ∉ pre ->
  settle (net i) = inl err ->
  searchRecipes query net (pre ++ i :: post) st =
    (search_reset st |> search_catch err |> setLoading false, None).
Proof.
  intros Hq Hnd Hok Hi Hnot Herr.
  destruct (decide (n = 1)) as [Hn|Hn].
  - assert (i = 0) as -> by lia.
    rewrite search_single; [| exact Hq | exact Hn |].
    + unfold search_try. now rewrite Herr.
    + apply elem_of_app. right. left.
  - unfold searchRecipes.
    rewrite (searchRecipes_call_multi query st Hq Hn).
    now rewrite (run_multi_rejected net dat ings pre post i err).
Qed.

End SearchRuns.

(** ** Successful searches *)

Section SearchSuccess.

Lemma settle_ok {A : Type} (status : nat) (data : ApiResponse A) :
  ok status = true -> settle (HttpResponse status (JsonBody data)) = inr data.
Proof. unfold settle. now intros ->. Qed.

Lemma multi_term_body_null (ingredients : list string)
    (results : list (ApiResponse RecipeSummary)) (st : app_state) :
  some_null results = true ->
  multi_term_body ingredients results st =
    inr (st |> setRecipes [] |> setError (no_results_multi ingredients)).
Proof. unfold multi_term_body. now intros ->. Qed.

Lemma multi_term_body_matched (ingredients : list string)
    (lists : list (list RecipeSummary)) (intersected : list RecipeSummary)
    (st : app_state) :
  intersect (matched lists) = inr intersected ->
  multi_term_body ingredients (matched lists) st =
    inr (if 0 <? length intersected then st |> setRecipes intersected
         else st |> setRecipes [] |> setError (no_results_multi ingredients)).
Proof.
  intros Hint. unfold multi_term_body.
  rewrite some_null_matched, Hint.
  unfold mbind, result_bind. now destruct (0 <? length intersected).
Qed.

Lemma hd_map_seq {A : Type} (f : nat -> A) (d : A) (n : nat) :
  0 < n -> hd d (map f (seq 0 n)) = f 0.
Proof. destruct n; [lia | reflexivity]. Qed.

Lemma complete_schedule_first (n : nat) (order : list nat) :
  complete_schedule n order -> 0 < n -> 0 ∈ order.
Proof. intros [_ H] Hn. now apply H. Qed.

Variable query : string.
Variable net : nat -> fetch_outcome RecipeSummary.
Variable upstream : nat -> list RecipeSummary.

Local Abbreviation ings := (parse_ingredients query).
Local Abbreviation n := (length (parse_ingredients query)).
Local Abbreviation dat := (fun i => mkApiResponse (Some (upstream i))).

Lemma matched_upstream (k : nat) :
  map dat (seq 0 k) = matched (map upstream (seq 0 k)).
Proof. unfold matched. now rewrite map_map. Qed.

Lemma search_matched (order : list nat) (st : app_state)
    (intersected : list RecipeSummary) :
  truthy (trim query) = true -> n <> 1 ->
  complete_schedule n order -> fulfilled_requests net dat n order ->
  intersect (matched (map upstream (seq 0 n))) = inr intersected ->
  searchRecipes query net order st =
    ((if 0 <? length intersected then search_reset st |> setRecipes intersected
      else search_reset st |> setRecipes [] |> setError (no_results_multi ings))
     |> setLoading false, None).
Proof.
  intros Hq Hn Hsched Hok Hint.
  rewrite (search_complete net query st dat order Hq Hn Hsched Hok).
  unfold search_try.
  now rewrite matched_upstream, (multi_term_body_matched _ _ _ _ Hint).
Qed.

End SearchSuccess.

(** C1.  In a search whose requests all succeed and all match: with a
    single term the recipe list is the endpoint's list, in the endpoint's
    order, and no error is set; with several terms the identifiers of the
    recipe list are those of the first term's list that occur in every
    term's list, in the order of the first list, and (identifiers being
    unique within the first term's list) the recipe list is the first
    term's list filtered to these identifiers; no error is set when that
    list is not empty. *)
Theorem search_success (query : string) (net : nat -> fetch_outcome RecipeSummary)
    (status : nat -> nat) (upstream : nat -> list RecipeSummary)
    (order : list nat) (st : app_state) :
  parse_ingredients query <> [] ->
  complete_schedule (length (parse_ingredients query)) order ->
  (forall i, i < length (parse_ingredients query) ->
     net i = HttpResponse (status i) (JsonBody (mkApiResponse (Some (upstream i)))) /\
     ok (status i) = true) ->
  let final := fst (searchRecipes query net order st) in
  (length (parse_ingredients query) = 1 ->
     recipes final = upstream 0 /\ error final = "") /\
  (length (parse_ingredients query) <> 1 ->
     map idMeal (recipes final) =
       map idMeal
         (spec_intersection (map upstream (seq 0 (length (parse_ingredients query))))) /\
     (recipes final <> [] -> error final = "") /\
     (NoDup (map idMeal (upstream 0)) ->
      recipes final =
        spec_intersection (map upstream (seq 0 (length (parse_ingredients query)))))).
Proof.
  intros Hne Hsched Hnet final. subst final.
  pose proof (parse_ingredients_truthy query Hne) as Hq.
  assert (Hpos : 0 < length (parse_ingredients query)).
  { destruct (parse_ingredients query); [congruence | simpl; lia]. }
  split.
  - intros Hn.
    rewrite (search_single net query st order Hq Hn)
      by (apply (complete_schedule_first _ _ Hsched); lia).
    destruct (Hnet 0 Hpos) as [-> Hok].
    unfold search_try. rewrite (settle_ok _ _ Hok). split; reflexivity.
  - intros Hn.
    assert (Hok : fulfilled_requests net (fun i => mkApiResponse (Some (upstream i)))
                    (length (parse_ingredients query)) order).
    { intros i Hi. apply Hsched in Hi. split; [exact Hi |].
      destruct (Hnet i Hi) as [-> Hok]. now apply settle_ok. }
    assert (Hlists : map upstream (seq 0 (length (parse_ingredients query))) <> []).
    { intros H. apply (f_equal length) in H.
      rewrite length_map, length_seq in H. simpl in H. lia. }
    destruct (intersect_ids _ Hlists) as [xs [Hint Hids]].
    rewrite (search_matched query net upstream order st xs Hq Hn Hsched Hok Hint).
    assert (Hrecipes :
      recipes (fst ((if 0 <? length xs then search_reset st |> setRecipes xs
                     else search_reset st |> setRecipes []
                            |> setError (no_results_multi (parse_ingredients query)))
                    |> setLoading false, @None search_task)) = xs).
    { now destruct xs. }
    rewrite Hrecipes. split; [exact Hids |]. split.
    + destruct xs; [congruence | reflexivity].
    + intros Hnd.
      assert (Hhd : NoDup (map idMeal
                      (hd [] (map upstream (seq 0 (length (parse_ingredients query))))))).
      { now rewrite hd_map_seq. }
      pose proof (intersect_unique _ Hlists Hhd) as Huniq.
      rewrite Hint in Huniq. now injection Huniq.
Qed.

Lemma search_success_witness :
  recipes (fst (searchRecipes "a, b" netAB [1; 0] initial_state))
    = [recipeY; recipeZ].
Proof.
  assert (H1 : parse_ingredients "a, b" <> []) by (vm_compute; intros H; discriminate H).
  assert (H2 : complete_schedule (length (parse_ingredients "a, b")) [1; 0]).
  { split.
    - apply (bool_decide_unpack _). vm_compute. exact I.
    - intros i. change (length (parse_ingredients "a, b")) with 2.
      rewrite !elem_of_cons, elem_of_nil. lia. }
  assert (H3 : forall i, i < length (parse_ingredients "a, b") ->
             netAB i = HttpResponse 200 (JsonBody (mkApiResponse (Some (upstreamAB i)))) /\
             ok 200 = true).
  { intros i _. split; reflexivity. }
  destruct (search_success "a, b" netAB (fun _ => 200) upstreamAB [1; 0]
              initial_state H1 H2 H3) as [_ Hmulti].
  destruct Hmulti as (_ & _ & Hrecipes).
  - vm_compute. intros H. discriminate H.
  - apply Hrecipes. apply (bool_decide_unpack _). vm_compute. exact I.
Defined.

(** ** How a search ends *)

Section SearchEnd.

Variable net : nat -> fetch_outcome RecipeSummary.

Lemma search_try_end (body : app_state -> result app_state) (st : app_state) :
  (forall st', body st = inr st' ->
     (exists l, st' = st |> setRecipes l) \/
     (exists message, st' = st |> setRecipes [] |> setError message)) ->
  search_end st (search_try body st).
Proof.
  intros Hbody. unfold search_try.
  destruct (body st) as [err|st'] eqn:E; [constructor |].
  destruct (Hbody st' eq_refl) as [[l ->]|[message ->]]; constructor.
Qed.

Lemma single_term_body_end (query : string) (st : app_state) :
  search_end st
    (search_try (fun st => data ← settle (net 0); single_term_body query data st) st).
Proof.
  apply search_try_end. intros st'.
  destruct (settle (net 0)) as [err|data]; [discriminate |].
  unfold mbind, result_bind, single_term_body.
  destruct (meals data); intros [= <-]; eauto.
Qed.

Lemma multi_term_body_end (ingredients : list string)
    (results : list (ApiResponse RecipeSummary)) (st : app_state) :
  search_end st (search_try (multi_term_body ingredients results) st).
Proof.
  apply search_try_end. intros st'. unfold multi_term_body.
  destruct (some_null results); [intros [= <-]; eauto |].
  destruct (intersect results) as [err|intersected]; [discriminate |].
  unfold mbind, result_bind.
  destruct (0 <? length intersected); intros [= <-]; eauto.
Qed.

Lemma resume_all_end (ingredients : list string)
    (slots : list (option (ApiResponse RecipeSummary))) (st : app_state) :
  (exists task, resume_all ingredients slots st = (st, Some task)) \/
  (exists st', resume_all ingredients slots st = (st', None) /\ search_end st st').
Proof.
  unfold resume_all. destruct (mapM _ slots) as [results|]; [right | left; eauto].
  eexists. split; [reflexivity | apply multi_term_body_end].
Qed.

Lemma step_end (st : app_state) (task : search_task) (i : nat) :
  (exists task', searchRecipes_step net (st, Some task) i = (st, Some task')) \/
  (exists st', searchRecipes_step net (st, Some task) i = (st', None) /\
               search_end st st').
Proof.
  destruct task as [query|ingredients slots]; cbn [searchRecipes_step].
  - destruct (i =? 0); [right | left; eauto].
    eexists. split; [reflexivity | apply single_term_body_end].
  - destruct (slots !! i) as [[data|]|]; [left; eauto | | left; eauto].
    destruct (settle (net i)) as [err|data]; [right | apply resume_all_end].
    eexists. split; [reflexivity | apply (end_caught st err)].
Qed.

Lemma run_end (order : list nat) (st : app_state) (task : search_task) :
  (exists task', foldl (searchRecipes_step net) (st, Some task) order
                 = (st, Some task')) \/
  (exists st', foldl (searchRecipes_step net) (st, Some task) order = (st', None) /\
               search_end st st').
Proof.
  revert task. induction order as [|i order IH]; intros task; [left; eauto |].
  cbn [foldl].
  destruct (step_end st task i) as [[task' ->]|[st' [-> Hend]]]; [apply IH |].
  right. exists st'. split; [apply run_finished | exact Hend].
Qed.

(** A search on a non-blank query either is still waiting, in the state
    its requests were issued from, or has ended in one of the three
    ways. *)
Lemma searchRecipes_end (query : string) (order : list nat) (st : app_state) :
  truthy (trim query) = true ->
  (exists task, searchRecipes query net order st = (search_reset st, Some task)) \/
  (exists st', searchRecipes query net order st = (st', None) /\
               search_end (search_reset st) st').
Proof.
  intros Hq. unfold searchRecipes, searchRecipes_call. rewrite Hq.
  fold (search_reset st).
  destruct (length (parse_ingredients query) =? 1); [apply run_end |].
  destruct (resume_all_end (parse_ingredients query)
              (replicate (length (parse_ingredients query)) None) (search_reset st))
    as [[task ->]|[st' [-> Hend]]]; [apply run_end |].
  right. exists st'. split; [apply run_finished | exact Hend].
Qed.

Lemma search_end_error (st st' : app_state) :
  error st = "" -> search_end st st' -> error st' <> "" -> recipes st' = [].
Proof. intros Hst [l|message|err]; simpl; [congruence | reflexivity | reflexivity]. Qed.


End SearchEnd.

(** ** Searches that end in an error *)

Section SearchErrors.

Lemma substring_no_results_single (query : string) :
  substring_of query (no_results_single query).
Proof.
  unfold no_results_single.
  apply substring_of_app_r, substring_of_app_r, substring_of_app_l, substring_of_refl.
Qed.

Lemma substring_no_results_multi (ingredients : list string) (t : string) :
  In t ingredients -> substring_of t (no_results_multi ingredients).
Proof.
  intros Hin. unfold no_results_multi.
  apply substring_of_app_r, substring_of_app_r, substring_of_app_l.
  now apply substring_of_join.
Qed.

Lemma some_null_dat (dat : nat -> ApiResponse RecipeSummary) (n i : nat) :
  i < n -> meals (dat i) = None -> some_null (map dat (seq 0 n)) = true.
Proof.
  intros Hi Hnull. apply (some_null_true _ (dat i)); [| exact Hnull].
  apply list_elem_of_In, in_map, in_seq. lia.
Qed.

Variable net : nat -> fetch_outcome RecipeSummary.
Variable query : string.
Variable order : list nat.
Variable st : app_state.

Local Abbreviation ings := (parse_ingredients query).
Local Abbreviation n := (length (parse_ingredients query)).

Hypothesis Hquery : truthy (trim query) = true.
Hypothesis Hsched : complete_schedule n order.

(** Some term has no match: the search ends with the no-results message
    of its branch. *)
Lemma search_no_match (dat : nat -> ApiResponse RecipeSummary) (i : nat) :
  fulfilled_requests net dat n order -> i < n -> meals (dat i) = None ->
  searchRecipes query net order st =
    (search_reset st |> setRecipes []
       |> setError (if n =? 1 then no_results_single query else no_results_multi ings)
       |> setLoading false, None).
Proof.
  intros Hok Hi Hnull. destruct (decide (n = 1)) as [Hn|Hn].
  - assert (i = 0) as -> by lia.
    rewrite (search_single net query st order Hquery Hn)
      by (apply (complete_schedule_first _ _ Hsched); lia).
    destruct (Hok 0) as [_ Hsettle]; [apply Hsched; lia |].
    unfold search_try. rewrite Hsettle.
    unfold mbind, result_bind, single_term_body. rewrite Hnull.
    now rewrite Hn.
  - rewrite (search_complete net query st dat order Hquery Hn Hsched Hok).
    unfold search_try.
    rewrite (multi_term_body_null _ _ _ (some_null_dat dat n i Hi Hnull)).
    apply Nat.eqb_neq in Hn. now rewrite Hn.
Qed.

(** All terms match but no recipe is common to all of them. *)
Lemma search_empty_intersection (upstream : nat -> list RecipeSummary) :
  2 <= n ->
  fulfilled_requests net (fun i => mkApiResponse (Some (upstream i))) n order ->
  spec_intersection (map upstream (seq 0 n)) = [] ->
  searchRecipes query net order st =
    (search_reset st |> setRecipes [] |> setError (no_results_multi ings)
       |> setLoading false, None).
Proof.
  intros Hn Hok Hempty.
  destruct (intersect_ids (map upstream (seq 0 n))) as [xs [Hint Hids]].
  { intros H. apply (f_equal length) in H.
    rewrite length_map, length_seq in H. simpl in H. lia. }
  rewrite Hempty in Hids. destruct xs; [| discriminate].
  rewrite (search_matched query net upstream order st [] Hquery
             ltac:(lia) Hsched Hok Hint).
  reflexivity.
Qed.

End SearchErrors.

(** C8.  In a failed search, let request [i] be the first one that does
    not succeed.  If it could not reach the service, the error shown is
    the network-error message; if it was answered with a non-success
    status, the error shown is the generic search-failure message and the
    logged exception carries the status code.  The two messages differ.
    In both cases the recipe list is empty. *)
Theorem search_failure_category (query : string)
    (net : nat -> fetch_outcome RecipeSummary)
    (dat : nat -> ApiResponse RecipeSummary)
    (pre post : list nat) (i : nat) (st : app_state) :
  truthy (trim query) = true ->
  NoDup pre ->
  fulfilled_requests net dat (length (parse_ingredients query)) pre ->
  i < length (parse_ingredients query) ->
  i ∉ pre ->
  let final := fst (searchRecipes query net (pre ++ i :: post) st) in
  (forall message, net i = TransportFailure message ->
     error final = network_error_message /\
     console final = console st ++ [("Search error:", TypeError message)] /\
     recipes final = []) /\
  (forall status body, net i = HttpResponse status body -> ok status = false ->
     error final = search_failure_message /\
     console final =
       console st ++
         [("Search error:", Error ("HTTP error! status: " +:+ string_of_nat status))] /\
     recipes final = []) /\
  network_error_message <> search_failure_message.
Proof.
  intros Hq Hnd Hok Hi Hnot final. subst final. split; [| split].
  - intros message Hnet.
    rewrite (search_rejected net query st dat pre post i (TypeError message)
               Hq Hnd Hok Hi Hnot) by now rewrite Hnet.
    repeat split.
  - intros status body Hnet Hstatus.
    rewrite (search_rejected net query st dat pre post i
               (Error ("HTTP error! status: " +:+ string_of_nat status))
               Hq Hnd Hok Hi Hnot) by (rewrite Hnet; unfold settle; now rewrite Hstatus).
    repeat split.
  - discriminate.
Qed.

Lemma search_failure_category_witness :
  error (fst (searchRecipes "a, b" netDown [0; 1] initial_state))
    = network_error_message /\
  error (fst (searchRecipes "a, b" netBroken [0; 1] initial_state))
    = search_failure_message /\
  console (fst (searchRecipes "a, b" netBroken [0; 1] initial_state))
    = [("Search error:", Error "HTTP error! status: 500")].
Proof.
  assert (Hnd : NoDup [0]) by (apply (bool_decide_unpack _); vm_compute; exact I).
  assert (Hnot : 1 ∉ [0]) by (apply (bool_decide_unpack _); vm_compute; exact I).
  assert (Hi : 1 < length (parse_ingredients "a, b")) by (vm_compute; lia).
  assert (Hdown : fulfilled_requests netDown (settled_data netAB)
                    (length (parse_ingredients "a, b")) [0]).
  { intros j Hj. apply list_elem_of_singleton in Hj as ->.
    split; [vm_compute; lia | reflexivity]. }
  assert (Hbroken : fulfilled_requests netBroken (settled_data netAB)
                      (length (parse_ingredients "a, b")) [0]).
  { intros j Hj. apply list_elem_of_singleton in Hj as ->.
    split; [vm_compute; lia | reflexivity]. }
  destruct (search_failure_category "a, b" netDown (settled_data netAB) [0] [] 1
              initial_state eq_refl Hnd Hdown Hi Hnot) as (Htransport & _ & _).
  destruct (search_failure_category "a, b" netBroken (settled_data netAB) [0] [] 1
              initial_state eq_refl Hnd Hbroken Hi Hnot) as (_ & Hstatus & _).
  destruct (Htransport "Failed to fetch" eq_refl) as (H1 & _ & _).
  destruct (Hstatus 500 (InvalidJson "Unexpected token") eq_refl eq_refl)
    as (H2 & H3 & _).
  split; [exact H1 |]. split; [exact H2 | exact H3].
Defined.

(** C4.  A query that yields no term.  When the query is blank the call
    is a no-op.  When it is not blank (it holds a comma), the search
    starts, resets the state, awaits no request and throws a TypeError on
    [results[0].meals]; the handler reports it as a network error and
    empties the recipe list. *)
Theorem search_without_terms (query : string)
    (net : nat -> fetch_outcome RecipeSummary) (order : list nat) (st : app_state) :
  parse_ingredients query = [] ->
  (truthy (trim query) = false -> searchRecipes query net order st = (st, None)) /\
  (truthy (trim query) = true ->
     searchRecipes query net order st =
       (search_reset st
          |> search_catch
               (TypeError "Cannot read properties of undefined (reading 'meals')")
          |> setLoading false, None) /\
     error (fst (searchRecipes query net order st)) = network_error_message /\
     recipes (fst (searchRecipes query net order st)) = [] /\
     hasSearched (fst (searchRecipes query net order st)) = true).
Proof.
  intros Hnone. split; intros Hq.
  - unfold searchRecipes. rewrite (searchRecipes_call_blank query st Hq).
    apply run_finished.
  - assert (Hrun : searchRecipes query net order st =
                   (search_reset st
                      |> search_catch
                           (TypeError "Cannot read properties of undefined (reading 'meals')")
                      |> setLoading false, None)).
    { unfold searchRecipes.
      rewrite (searchRecipes_call_multi query st Hq) by now rewrite Hnone.
      rewrite Hnone. apply run_finished. }
    rewrite Hrun. repeat split.
Qed.

Lemma search_without_terms_witness :
  error (fst (searchRecipes "," netAB [] initial_state)) = network_error_message /\
  recipes (fst (searchRecipes "," netAB [] initial_state)) = [] /\
  hasSearched (fst (searchRecipes "," netAB [] initial_state)) = true.
Proof.
  destruct (search_without_terms "," netAB [] initial_state eq_refl) as [_ H].
  destruct (H eq_refl) as (_ & Herror & Hrecipes & Hsearched).
  split; [exact Herror |]. split; [exact Hrecipes | exact Hsearched].
Defined.

(** ** The fallback of the multi-term branch *)

(** C9.  In the multi-term branch (no response is null), every identifier
    kept by the intersection filter is a key of the map built from the
    first term's list: the callback returns the mapped recipe and never
    reaches the scan of the other lists, no element of the mapped array
    is [null], and the final filter keeps all of them. *)
Theorem fallback_unreachable (results : list (ApiResponse RecipeSummary)) :
  results <> [] ->
  some_null results = false ->
  exists (idSets : list (gset string)) (firstList : list RecipeSummary),
    id_sets results = inr idSets /\
    first_meals results = inr firstList /\
    let commonIds := common_ids idSets firstList in
    let mealMap := meal_map firstList in
    (forall id, In id commonIds ->
       exists m, mealMap !! id = Some m /\
                 resolve_meal mealMap results id = inr (Some m)) /\
    exists found : list (option RecipeSummary),
      mapM (resolve_meal mealMap results) commonIds = inr found /\
      Forall (fun x => is_Some x) found /\
      intersect results = inr (omap (fun x : option RecipeSummary => x) found) /\
      length (omap (fun x : option RecipeSummary => x) found) = length commonIds.
Proof.
  intros Hne Hnull.
  destruct (some_null_false results Hnull) as [lists ->].
  destruct lists as [|firstList others]; [exfalso; apply Hne; reflexivity |].
  exists (map (fun l => list_to_set (map idMeal l)) (firstList :: others)), firstList.
  split; [apply id_sets_matched |]. split; [reflexivity |].
  intros commonIds mealMap.
  assert (Hmember : forall id, In id commonIds ->
            exists m, mealMap !! id = Some m /\
                      resolve_meal mealMap (matched (firstList :: others)) id
                        = inr (Some m)).
  { intros id Hid. apply common_ids_subset in Hid.
    destruct (resolve_meal_member firstList (matched (firstList :: others)) id Hid)
      as [m (Hl & _ & Hr)].
    now exists m. }
  split; [exact Hmember |].
  exists (map (fun id => mealMap !! id) commonIds).
  split; [| split; [| split]].
  - apply mapM_result_inr. intros id Hid. apply list_elem_of_In in Hid.
    destruct (Hmember id Hid) as [m [Hl Hr]]. now rewrite Hr, Hl.
  - apply Forall_forall. intros x Hx.
    apply list_elem_of_In, in_map_iff in Hx as [id [<- Hid]].
    destruct (Hmember id Hid) as [m [Hl _]]. now exists m.
  - rewrite intersect_matched. unfold commonIds.
    now rewrite common_ids_matched.
  - apply omap_lookup_length. intros id Hid.
    destruct (Hmember id Hid) as [m [Hl _]]. now exists m.
Qed.

Lemma fallback_unreachable_witness :
  exists found : list (option RecipeSummary),
    Forall (fun x => is_Some x) found /\
    intersect (matched [upstreamAB 0; upstreamAB 1])
      = inr (omap (fun x : option RecipeSummary => x) found).
Proof.
  destruct (fallback_unreachable (matched [upstreamAB 0; upstreamAB 1]))
    as (idSets & firstList & _ & _ & _ & found & _ & Hsome & Hint & _).
  - discriminate.
  - reflexivity.
  - exists found. split; [exact Hsome | exact Hint].
Defined.

(** ** Detail fetches *)

Section Details.

Lemma details_body_not_found (o : fetch_outcome RecipeDetail) (st : app_state) :
  no_matching_record o ->
  details_body o st = inl (Error "Recipe details not found").
Proof.
  intros (status & ms & -> & Hok & Hnone).
  unfold details_body. rewrite (settle_ok _ _ Hok).
  unfold mbind at 1, result_bind. cbn [meals]. now rewrite Hnone.
Qed.

Lemma settle_not_found (o : fetch_outcome RecipeDetail) (st : app_state) :
  no_matching_record o ->
  fetchRecipeDetails_settle o st =
    st |> details_catch (Error "Recipe details not found") |> setDetailsLoading false.
Proof.
  intros Ho. unfold fetchRecipeDetails_settle.
  now rewrite (details_body_not_found o st Ho).
Qed.

End Details.

(** C5, as stated, fails: when the response that holds no record arrives
    while the record of another recipe is displayed, the displayed record
    is discarded. *)
Lemma failed_fetch_discards_details : ~ failed_fetch_keeps_details.
Proof.
  intros H. specialize (H not_found showing_Y).
  assert (Hnf : no_matching_record not_found).
  { exists 200, None. repeat split. }
  specialize (H Hnf). vm_compute in H. discriminate H.
Qed.

(** C5, amended.  A detail fetch whose identifier has no matching record
    throws and logs the error [Recipe details not found], shows the
    generic details-failure message, ends the loading state and resets
    the detail record to [null]; the search results, the search error, the
    query, and the selected recipe are unchanged. *)
Theorem fetch_not_found (recipeId : string) (o : fetch_outcome RecipeDetail)
    (st : app_state) :
  truthy recipeId = true ->
  no_matching_record o ->
  let final := fetchRecipeDetails recipeId o st in
  console final = console st ++ [("Details fetch error:", Error "Recipe details not found")] /\
  detailsError final = details_failure_message /\
  recipeDetails final = None /\
  detailsLoading final = false /\
  recipes final = recipes st /\ error final = error st /\
  searchQuery final = searchQuery st /\ loading final = loading st /\
  hasSearched final = hasSearched st /\ selectedRecipe final = selectedRecipe st.
Proof.
  intros Hid Ho final. subst final.
  unfold fetchRecipeDetails, fetchRecipeDetails_call. rewrite Hid.
  rewrite (settle_not_found o _ Ho). repeat split.
Qed.

Lemma fetch_not_found_witness :
  recipeDetails (fetchRecipeDetails "52772" not_found showing_Y) = None /\
  detailsError (fetchRecipeDetails "52772" not_found showing_Y) = details_failure_message.
Proof.
  assert (Hnf : no_matching_record not_found).
  { exists 200, None. repeat split. }
  destruct (fetch_not_found "52772" not_found showing_Y eq_refl Hnf)
    as (_ & Herr & Hdetails & _).
  split; [exact Hdetails | exact Herr].
Defined.

(** ** Waiting for the responses *)



(* ================================================================== *)
(** * Part III: further properties of the code *)
(* ================================================================== *)

(** ** Terms and steps *)

Section Normalisation.

Lemma contains_char_app (c : ascii) (a b : string) :
  contains_char c (a +:+ b) = contains_char c a || contains_char c b.
Proof.
  induction a as [|x a IH]; [reflexivity |].
  rewrite append_cons. simpl. now rewrite IH, orb_assoc.
Qed.

Lemma contains_char_substring (c : ascii) (t s : string) :
  substring_of t s -> contains_char c s = false -> contains_char c t = false.
Proof.
  intros [pre [post ->]]. rewrite !contains_char_app.
  intros H. apply orb_false_iff in H as [_ H].
  now apply orb_false_iff in H as [H _].
Qed.

Lemma trimStart_id (s : string) :
  (forall c, first_char s = Some c -> is_whitespace c = false) -> trimStart s = s.
Proof.
  destruct s as [|c s]; [reflexivity |]. intros H. simpl.
  now rewrite (H c eq_refl).
Qed.

Lemma trimEnd_id (s : string) :
  (forall c, last_char s = Some c -> is_whitespace c = false) -> trimEnd s = s.
Proof.
  induction s as [|c s IH]; [reflexivity |]. intros H.
  destruct s as [|c' s].
  - simpl. now rewrite (H c eq_refl).
  - assert (Hs : trimEnd (String c' s) = String c' s) by (apply IH; exact H).
    change (trimEnd (String c (String c' s))) with
      (match trimEnd (String c' s) with
       | EmptyString => if is_whitespace c then EmptyString else String c EmptyString
       | String _ _ as t => String c t
       end).
    now rewrite Hs.
Qed.

Lemma trim_id (s : string) : trimmed s -> trim s = s.
Proof.
  intros [Hfirst Hlast]. unfold trim.
  rewrite (trimStart_id s Hfirst). now apply trimEnd_id.
Qed.

Lemma trim_space_id (s : string) : trimmed s -> trim (String " "%char s) = s.
Proof. intros H. unfold trim. cbn [trimStart]. now apply trim_id. Qed.

Lemma join_cons_char (sep : string) (c : ascii) (x : string) (l : list string) :
  join sep (String c x :: l) = String c (join sep (x :: l)).
Proof. destruct l; [reflexivity |]. now rewrite !join_cons_cons, append_cons. Qed.

Lemma join_comma_space (t : string) (rest : list string) :
  join ", " (t :: rest) = join "," (t :: map (String " "%char) rest).
Proof.
  revert t. induction rest as [|t' rest IH]; intros t; [reflexivity |].
  cbn [map]. rewrite !join_cons_cons, IH, join_cons_char.
  reflexivity.
Qed.

Lemma parse_pieces (pieces : list string) :
  pieces <> [] ->
  Forall (fun piece => contains_char comma piece = false) pieces ->
  parse_ingredients (join "," pieces) = List.filter truthy (map trim pieces).
Proof.
  intros Hne Hall. unfold parse_ingredients.
  change (join "," pieces) with (join (String comma "") pieces).
  now rewrite (split_join comma pieces Hne Hall).
Qed.

Lemma filter_truthy_terms (ts : list string) :
  Forall term_ok ts -> List.filter truthy ts = ts.
Proof.
  induction 1 as [|t ts [Hne _] _ IH]; [reflexivity |].
  cbn [List.filter]. destruct t; [congruence |]. cbn [truthy]. now rewrite IH.
Qed.

Lemma map_trim_spaced (ts : list string) :
  Forall term_ok ts -> map trim (map (String " "%char) ts) = ts.
Proof.
  induction 1 as [|t ts (_ & Ht & _) _ IH]; [reflexivity |].
  cbn [map]. now rewrite IH, trim_space_id.
Qed.

End Normalisation.

(** X1.  The terms of a query are exactly what the no-results message
    prints: parsing the comma-and-space joined list of well-formed terms
    (non-empty, trimmed, comma-free) gives the list back. *)
Theorem parse_join_round_trip (ts : list string) :
  Forall term_ok ts -> parse_ingredients (join ", " ts) = ts.
Proof.
  intros Hts. destruct ts as [|t rest]; [reflexivity |].
  rewrite join_comma_space.
  inversion Hts as [|? ? Ht Hrest]; subst.
  rewrite parse_pieces.
  - cbn [map]. rewrite (map_trim_spaced rest Hrest).
    rewrite (trim_id t) by apply Ht.
    now apply filter_truthy_terms.
  - discriminate.
  - constructor; [apply Ht |].
    apply Forall_forall. intros piece Hpiece.
    apply list_elem_of_In, in_map_iff in Hpiece as [t' [<- Ht']].
    rewrite Forall_forall in Hrest.
    destruct (Hrest t') as (_ & _ & Hcomma); [now apply list_elem_of_In |].
    simpl. exact Hcomma.
Qed.

Lemma parse_join_round_trip_witness :
  parse_ingredients (join ", " ["chicken"; "brown sugar"; "rice"])
    = ["chicken"; "brown sugar"; "rice"].
Proof.
  apply parse_join_round_trip.
  repeat constructor; try discriminate; simpl; intros c [= <-]; reflexivity.
Defined.

(** X2.  Every term parsed from a query is well formed (non-empty,
    trimmed, comma-free) and occurs in the query as a contiguous run of
    characters. *)
Theorem parse_ingredients_well_formed (query : string) :
  Forall (fun t => term_ok t /\ substring_of t query) (parse_ingredients query).
Proof.
  apply Forall_forall. intros t Ht. apply list_elem_of_In in Ht.
  destruct (parse_ingredients_In query t Ht) as [piece (Hpiece & -> & Hne)].
  pose proof (substring_of_split comma piece query Hpiece) as Hsub.
  split; [| exact (substring_of_trans _ _ _ (trim_substring piece) Hsub)].
  split; [exact Hne |]. split; [apply trim_trimmed |].
  apply (contains_char_substring comma _ piece (trim_substring piece)).
  pose proof (split_no_sep comma query) as Hno.
  rewrite List.Forall_forall in Hno. now apply Hno.
Qed.

Section StepsNormalForm.

Lemma formatInstructions_steps_ok (s : string) :
  Forall (fun step => step <> "" /\ trimmed step /\ contains_char LF step = false)
    (formatInstructions (Some s)).
Proof.
  rewrite formatInstructions_lines.
  pose proof (split_no_sep LF s) as Hno.
  induction (split LF s) as [|x l IH]; simpl; [constructor |].
  inversion Hno as [|? ? Hx Hl]; subst.
  destruct (all_whitespace x) eqn:Hblank; simpl; [now apply IH |].
  constructor; [| now apply IH].
  split; [| split].
  - intros H. apply trim_nil_iff in H. congruence.
  - apply trim_trimmed.
  - exact (contains_char_substring LF _ x (trim_substring x) Hx).
Qed.

Lemma format_steps_fixed (steps : list string) :
  Forall (fun step => step <> "" /\ trimmed step /\ contains_char LF step = false) steps ->
  formatInstructions (Some (join line_break steps)) = steps.
Proof.
  intros Hsteps. destruct steps as [|x l] eqn:E; [reflexivity |]. rewrite <- E in *.
  rewrite formatInstructions_lines. unfold line_break.
  rewrite split_join.
  - clear E. induction Hsteps as [|y k (Hne & Htrim & _) _ IH]; [reflexivity |].
    cbn [List.filter]. rewrite (trimmed_not_blank y Hne Htrim).
    cbn [negb map]. now rewrite IH, trim_id.
  - rewrite E. discriminate.
  - eapply Forall_impl; [exact Hsteps |]. now intros y (_ & _ & Hy).
Qed.

End StepsNormalForm.

(** X3.  The steps [formatInstructions] returns are in normal form: no
    step holds a line break, and formatting the steps joined by line
    breaks gives the same steps again. *)
Theorem formatInstructions_normal_form (instructions : option string) :
  Forall (fun step => contains_char LF step = false) (formatInstructions instructions) /\
  formatInstructions (Some (join line_break (formatInstructions instructions)))
    = formatInstructions instructions.
Proof.
  destruct instructions as [s|]; [| split; [constructor | reflexivity]].
  pose proof (formatInstructions_steps_ok s) as Hok.
  split; [| now apply format_steps_fixed].
  eapply Forall_impl; [exact Hok |]. now intros y (_ & _ & Hy).
Qed.

Section SlotFields.

Lemma slot_key_ingredient (i : nat) :
  In i (seq 1 20) -> In ("strIngredient" +:+ string_of_nat i) slot_keys.
Proof.
  intros Hi. unfold slot_keys. apply in_flat_map.
  exists i. split; [exact Hi | now left].
Qed.

Lemma slot_key_measure (i : nat) :
  In i (seq 1 20) -> In ("strMeasure" +:+ string_of_nat i) slot_keys.
Proof.
  intros Hi. unfold slot_keys. apply in_flat_map.
  exists i. split; [exact Hi | right; now left].
Qed.

Lemma foldl_agree {A B : Type} (f g : A -> B -> A) (l : list B) (acc : A) :
  (forall x a, In x l -> f a x = g a x) -> foldl f acc l = foldl g acc l.
Proof.
  revert acc. induction l as [|x l IH]; intros acc H; [reflexivity |].
  cbn [foldl]. rewrite (H x acc) by now left.
  apply IH. intros y a Hy. apply H. now right.
Qed.

End SlotFields.

(** X4.  [extractIngredients] reads nothing but the forty fields
    [strIngredient1..20] and [strMeasure1..20]: two records that agree on
    these fields give the same entries, whatever else they hold (a slot 21,
    a slot 0, the name, the instructions). *)
Theorem extractIngredients_reads_slots_only (d1 d2 : RecipeDetail) :
  (forall key, In key slot_keys -> d1 !! key = d2 !! key) ->
  extractIngredients d1 = extractIngredients d2.
Proof.
  intros Hagree. unfold extractIngredients.
  apply foldl_agree. intros i acc Hi. unfold extract_step.
  now rewrite (Hagree _ (slot_key_ingredient i Hi)), (Hagree _ (slot_key_measure i Hi)).
Qed.

Lemma extractIngredients_reads_slots_only_witness :
  extractIngredients example_detail_extended = extractIngredients example_detail.
Proof.
  apply extractIngredients_reads_slots_only.
  intros key Hkey. unfold example_detail_extended.
  assert (Hne : key <> "strIngredient21" /\ key <> "strMeasure21" /\
                key <> "strIngredient0").
  { vm_compute in Hkey.
    repeat (destruct Hkey as [<- | Hkey]; [repeat split; discriminate |]).
    destruct Hkey. }
  destruct Hne as (H1 & H2 & H3).
  rewrite !lookup_insert_ne by congruence. reflexivity.
Defined.

(** ** Detail fetches and the overlay *)

Section DetailOutcomes.

Lemma details_body_cases (o : fetch_outcome RecipeDetail) (st : app_state) :
  (exists d, record_found o d /\ details_body o st = inr (st |> setRecipeDetails (Some d))) \/
  (exists err, details_body o st = inl err /\
               (err_name err = "TypeError" <-> exists message, o = TransportFailure message) /\
               forall d, ~ record_found o d).
Proof.
  destruct o as [message|status body].
  - right. exists (TypeError message). split; [reflexivity |]. split.
    + split; [intros _; now exists message | reflexivity].
    + intros d (status & rest & H & _). discriminate H.
  - unfold details_body, settle. destruct (ok status) eqn:Hok.
    + destruct body as [message|[ms]].
      * right. exists (SyntaxError message). split; [reflexivity |]. split.
        -- split; [discriminate | intros [m H]; discriminate H].
        -- intros d (status' & rest & H & _). discriminate H.
      * destruct ms as [[|d rest]|].
        -- right. exists (Error "Recipe details not found").
           split; [reflexivity |]. split.
           ++ split; [discriminate | intros [m H]; discriminate H].
           ++ intros d (status' & rest & H & _). discriminate H.
        -- left. exists d. split; [| reflexivity].
           exists status, rest. now split.
        -- right. exists (Error "Recipe details not found").
           split; [reflexivity |]. split.
           ++ split; [discriminate | intros [m H]; discriminate H].
           ++ intros d (status' & rest & H & _). discriminate H.
    + right. exists (Error ("HTTP error! status: " +:+ string_of_nat status)).
      split; [reflexivity |]. split.
      * split; [discriminate | intros [m H]; discriminate H].
      * intros d (status' & rest & H & Hok'). injection H as -> _. congruence.
Qed.

Lemma record_found_unique (o : fetch_outcome RecipeDetail) (d1 d2 : RecipeDetail) :
  record_found o d1 -> record_found o d2 -> d1 = d2.
Proof.
  intros (s1 & r1 & -> & _) (s2 & r2 & H & _). now injection H.
Qed.

Lemma details_catch_message (err : js_error) (st : app_state) :
  detailsError (details_catch err st) =
    (if String.eqb (err_name err) "TypeError"
     then details_connection_message else details_failure_message).
Proof. reflexivity. Qed.

End DetailOutcomes.

(** X5.  After a detail fetch for a non-empty identifier, from any state,
    the loading flag is off and exactly one of two things holds: the
    response held a record, which is now the detail record, with an empty
    error; or there is no detail record and an error message is set, the
    connection message exactly when the request could not reach the
    service and the generic failure message otherwise. *)
Theorem fetch_details_outcome (recipeId : string) (o : fetch_outcome RecipeDetail)
    (st : app_state) :
  truthy recipeId = true ->
  let final := fetchRecipeDetails recipeId o st in
  detailsLoading final = false /\
  ((exists d, record_found o d /\ recipeDetails final = Some d /\ detailsError final = "") \/
   ((forall d, ~ record_found o d) /\ recipeDetails final = None /\
    ((exists message, o = TransportFailure message) /\
     detailsError final = details_connection_message \/
     (forall message, o <> TransportFailure message) /\
     detailsError final = details_failure_message))).
Proof.
  intros Hid final. subst final.
  unfold fetchRecipeDetails, fetchRecipeDetails_call. rewrite Hid.
  unfold fetchRecipeDetails_settle.
  destruct (details_body_cases o (st |> setDetailsLoading true |> setDetailsError ""))
    as [(d & Hfound & ->)|(err & -> & Hname & Hnone)].
  - split; [reflexivity |]. left. exists d. repeat split. exact Hfound.
  - split; [reflexivity |]. right. split; [exact Hnone |]. split; [reflexivity |].
    cbn [detailsError setDetailsLoading].
    rewrite details_catch_message.
    destruct (String.eqb (err_name err) "TypeError") eqn:E.
    + left. split; [| reflexivity]. apply Hname. now apply String.eqb_eq.
    + right. split; [| reflexivity].
      intros message Ho. apply String.eqb_neq in E. apply E, Hname. now exists message.
Qed.

Lemma fetch_details_outcome_witness :
  recipeDetails (fetchRecipeDetails "52772" found_example stale_state)
    = Some example_detail /\
  detailsError (fetchRecipeDetails "52772" found_example stale_state) = "".
Proof.
  destruct (fetch_details_outcome "52772" found_example stale_state eq_refl)
    as [_ [(d & Hfound & Hd & He)|(Hnone & _)]].
  - assert (d = example_detail) as ->.
    { apply (record_found_unique found_example); [exact Hfound |].
      exists 200, []. split; reflexivity. }
    split; [exact Hd | exact He].
  - exfalso. apply (Hnone example_detail). exists 200, []. split; reflexivity.
Defined.

(** X6.  A detail fetch never touches the search: whatever the identifier
    and the response, the query, the recipe list, the search error, the
    two search flags and the selected recipe are unchanged; it logs at
    most one error; and with an empty identifier it changes nothing. *)
Theorem fetch_details_frame (recipeId : string) (o : fetch_outcome RecipeDetail)
    (st : app_state) :
  let final := fetchRecipeDetails recipeId o st in
  searchQuery final = searchQuery st /\ recipes final = recipes st /\
  error final = error st /\ loading final = loading st /\
  hasSearched final = hasSearched st /\ selectedRecipe final = selectedRecipe st /\
  (console final = console st \/
   exists err, console final = console st ++ [("Details fetch error:", err)]) /\
  (recipeId = "" -> final = st).
Proof.
  intros final. subst final.
  unfold fetchRecipeDetails, fetchRecipeDetails_call.
  destruct recipeId as [|c recipeId]; cbn [truthy].
  - repeat split; auto.
  - unfold fetchRecipeDetails_settle.
    destruct (details_body_cases o (st |> setDetailsLoading true |> setDetailsError ""))
      as [(d & _ & ->)|(err & -> & _)].
    + repeat split; auto; discriminate.
    + repeat split; try discriminate. right. now exists err.
Qed.

Lemma fetch_details_frame_witness :
  fetchRecipeDetails "" not_found showing_Y = showing_Y.
Proof.
  destruct (fetch_details_frame "" not_found showing_Y) as (_ & _ & _ & _ & _ & _ & _ & H).
  now apply H.
Defined.

Section Overlay.

Lemma settle_selectedRecipe (o : fetch_outcome RecipeDetail) (st : app_state) :
  selectedRecipe (fetchRecipeDetails_settle o st) = selectedRecipe st.
Proof.
  unfold fetchRecipeDetails_settle.
  now destruct (details_body_cases o st) as [(d & _ & ->)|(err & -> & _)].
Qed.

Lemma settle_all_selectedRecipe (os : list (fetch_outcome RecipeDetail))
    (st : app_state) :
  selectedRecipe (details_settle_all os st) = selectedRecipe st.
Proof.
  revert st. induction os as [|o os IH]; intros st; [reflexivity |].
  unfold details_settle_all in *. cbn [foldl].
  now rewrite IH, settle_selectedRecipe.
Qed.

Lemma settle_search_part (o : fetch_outcome RecipeDetail) (st : app_state) :
  recipes (fetchRecipeDetails_settle o st) = recipes st /\
  error (fetchRecipeDetails_settle o st) = error st /\
  loading (fetchRecipeDetails_settle o st) = loading st /\
  hasSearched (fetchRecipeDetails_settle o st) = hasSearched st /\
  searchQuery (fetchRecipeDetails_settle o st) = searchQuery st.
Proof.
  unfold fetchRecipeDetails_settle.
  now destruct (details_body_cases o st) as [(d & _ & ->)|(err & -> & _)].
Qed.

End Overlay.

(** X7.  Once the overlay is closed, by a close button or by the Escape
    key, it is hidden, and responses of detail requests that arrive later,
    however many, do not reopen it. *)
Theorem closed_overlay_stays_closed (os : list (fetch_outcome RecipeDetail))
    (st : app_state) :
  modal (details_settle_all os (closeModal st)) = ModalHidden /\
  modal (details_settle_all os (handleEscape "Escape" st)) = ModalHidden.
Proof.
  unfold modal. rewrite !settle_all_selectedRecipe. split; [reflexivity |].
  unfold handleEscape. cbn [String.eqb Ascii.eqb Bool.eqb andb].
  destruct (selectedRecipe st) as [r|] eqn:E.
  - rewrite bool_decide_eq_true_2 by eauto. reflexivity.
  - rewrite bool_decide_eq_false_2 by (intros [x H]; discriminate H).
    now rewrite E.
Qed.

(** X8.  Opening a recipe with a non-empty identifier shows the spinner;
    when the response arrives the overlay shows the record it holds, or
    else an error message, never an empty body. *)
Theorem click_then_response (recipe : RecipeSummary)
    (o : fetch_outcome RecipeDetail) (st : app_state) :
  truthy (idMeal recipe) = true ->
  modal (handleRecipeClick_call recipe st) = ModalLoading /\
  ((exists d, record_found o d /\
      modal (fetchRecipeDetails_settle o (handleRecipeClick_call recipe st))
        = ModalDetails d) \/
   ((forall d, ~ record_found o d) /\
    (modal (fetchRecipeDetails_settle o (handleRecipeClick_call recipe st))
       = ModalError details_connection_message \/
     modal (fetchRecipeDetails_settle o (handleRecipeClick_call recipe st))
       = ModalError details_failure_message))).
Proof.
  intros Hid. unfold handleRecipeClick_call, fetchRecipeDetails_call.
  rewrite Hid. cbn [fst]. split; [reflexivity |].
  unfold fetchRecipeDetails_settle.
  match goal with
  | |- context [details_body o ?s] =>
      destruct (details_body_cases o s) as [(d & Hfound & ->)|(err & -> & _ & Hnone)]
  end.
  - left. exists d. split; [exact Hfound | reflexivity].
  - right. split; [exact Hnone |].
    unfold modal. cbn.
    destruct (String.eqb (err_name err) "TypeError"); [left | right]; reflexivity.
Qed.

Lemma click_then_response_witness :
  modal (handleRecipeClick_call recipeY initial_state) = ModalLoading /\
  modal (fetchRecipeDetails_settle found_example
           (handleRecipeClick_call recipeY initial_state))
    = ModalDetails example_detail.
Proof.
  destruct (click_then_response recipeY found_example initial_state eq_refl)
    as [Hspin [(d & Hfound & Hd)|(Hnone & _)]].
  - split; [exact Hspin |].
    assert (d = example_detail) as <-; [| exact Hd].
    apply (record_found_unique found_example); [exact Hfound |].
    exists 200, []. split; reflexivity.
  - exfalso. apply (Hnone example_detail). exists 200, []. split; reflexivity.
Defined.

(** ** Searches as state transformers *)

Section SearchUniform.

Variable net : nat -> fetch_outcome RecipeSummary.

Lemma single_uniform (query : string) (o : fetch_outcome RecipeSummary) :
  exists out, forall st,
    search_try (fun st => data ← settle o; single_term_body query data st) st
      = apply_outcome out st.
Proof.
  unfold search_try. destruct (settle o) as [err|data].
  - now exists (OutCaught err).
  - unfold mbind, result_bind, single_term_body. destruct (meals data) as [l|].
    + now exists (OutRecipes l).
    + now exists (OutNoResults (no_results_single query)).
Qed.

Lemma no_results_multi_truthy (ingredients : list string) :
  truthy (no_results_multi ingredients) = true.
Proof. reflexivity. Qed.

Lemma multi_uniform (ingredients : list string)
    (results : list (ApiResponse RecipeSummary)) :
  exists out, outcome_visible out /\
    forall st, search_try (multi_term_body ingredients results) st = apply_outcome out st.
Proof.
  unfold search_try, multi_term_body. destruct (some_null results).
  - exists (OutNoResults (no_results_multi ingredients)). now split.
  - destruct (intersect results) as [err|xs].
    + exists (OutCaught err). now split.
    + unfold mbind, result_bind. destruct xs as [|x xs].
      * exists (OutNoResults (no_results_multi ingredients)). now split.
      * exists (OutRecipes (x :: xs)). now split.
Qed.

Lemma resume_all_uniform (ingredients : list string)
    (slots : list (option (ApiResponse RecipeSummary))) :
  (forall st, resume_all ingredients slots st = (st, Some (AwaitAll ingredients slots))) \/
  (exists out, outcome_visible out /\
     forall st, resume_all ingredients slots st = (apply_outcome out st, None)).
Proof.
  unfold resume_all. destruct (mapM _ slots) as [results|]; [right | now left].
  destruct (multi_uniform ingredients results) as [out [Hvis Hout]].
  exists out. split; [exact Hvis |]. intros st. now rewrite Hout.
Qed.

Lemma step_all_uniform (ingredients : list string)
    (slots : list (option (ApiResponse RecipeSummary))) (i : nat) :
  (exists slots', forall st,
      searchRecipes_step net (st, Some (AwaitAll ingredients slots)) i
        = (st, Some (AwaitAll ingredients slots'))) \/
  (exists out, outcome_visible out /\ forall st,
      searchRecipes_step net (st, Some (AwaitAll ingredients slots)) i
        = (apply_outcome out st, None)).
Proof.
  cbn [searchRecipes_step].
  destruct (slots !! i) as [[data|]|]; [left; now exists slots | | left; now exists slots].
  destruct (settle (net i)) as [err|data].
  - right. exists (OutCaught err). now split.
  - destruct (resume_all_uniform ingredients (<[i := Some data]> slots))
      as [H|(out & Hvis & H)].
    + left. now exists (<[i := Some data]> slots).
    + right. now exists out.
Qed.

Lemma run_all_uniform (order : list nat) (ingredients : list string)
    (slots : list (option (ApiResponse RecipeSummary))) :
  (exists slots', forall st,
      foldl (searchRecipes_step net) (st, Some (AwaitAll ingredients slots)) order
        = (st, Some (AwaitAll ingredients slots'))) \/
  (exists out, outcome_visible out /\ forall st,
      foldl (searchRecipes_step net) (st, Some (AwaitAll ingredients slots)) order
        = (apply_outcome out st, None)).
Proof.
  revert slots. induction order as [|i order IH]; intros slots.
  - left. now exists slots.
  - cbn [foldl].
    destruct (step_all_uniform ingredients slots i) as [[slots' H]|(out & Hvis & H)].
    + destruct (IH slots') as [[slots'' H']|(out & Hvis & H')].
      * left. exists slots''. intros st. now rewrite H, H'.
      * right. exists out. split; [exact Hvis |]. intros st. now rewrite H, H'.
    + right. exists out. split; [exact Hvis |]. intros st.
      rewrite H. apply run_finished.
Qed.

Lemma run_single_uniform (order : list nat) (query : string) :
  (forall st, foldl (searchRecipes_step net) (st, Some (AwaitFetch query)) order
              = (st, Some (AwaitFetch query))) \/
  (exists out, forall st,
      foldl (searchRecipes_step net) (st, Some (AwaitFetch query)) order
        = (apply_outcome out st, None)).
Proof.
  induction order as [|i order IH]; [now left |].
  cbn [foldl searchRecipes_step]. destruct (i =? 0); [right | exact IH].
  destruct (single_uniform query (net 0)) as [out Hout].
  exists out. intros st. rewrite Hout. apply run_finished.
Qed.

(** A search on a non-blank query is, as a function of the state it is
    called in, either "reset, then wait" or "reset, then write an outcome"
    that the state has no part in. *)
Lemma search_uniform (query : string) (order : list nat) :
  truthy (trim query) = true ->
  (exists task, forall st,
      searchRecipes query net order st = (search_reset st, Some task)) \/
  (exists out, forall st,
      searchRecipes query net order st = (apply_outcome out (search_reset st), None)).
Proof.
  intros Hq. unfold searchRecipes, searchRecipes_call. rewrite Hq.
  destruct (length (parse_ingredients query) =? 1).
  - destruct (run_single_uniform order query) as [H|[out H]].
    + left. exists (AwaitFetch query). intros st. apply H.
    + right. exists out. intros st. apply H.
  - destruct (resume_all_uniform (parse_ingredients query)
                (replicate (length (parse_ingredients query)) None))
      as [H|(out & _ & H)].
    + destruct (run_all_uniform order (parse_ingredients query)
                  (replicate (length (parse_ingredients query)) None))
        as [[slots' H']|(out & _ & H')].
      * left. eexists. intros st. rewrite H. apply H'.
      * right. exists out. intros st. rewrite H. apply H'.
    + right. exists out. intros st. rewrite H. apply run_finished.
Qed.

(** The same for a query that does not take the single-term branch, with
    the outcome visible on the page. *)
Lemma search_multi_uniform (query : string) (order : list nat) :
  truthy (trim query) = true ->
  length (parse_ingredients query) <> 1 ->
  (exists task, forall st,
      searchRecipes query net order st = (search_reset st, Some task)) \/
  (exists out, outcome_visible out /\ forall st,
      searchRecipes query net order st = (apply_outcome out (search_reset st), None)).
Proof.
  intros Hq Hn. unfold searchRecipes, searchRecipes_call. rewrite Hq.
  apply Nat.eqb_neq in Hn. rewrite Hn.
  destruct (resume_all_uniform (parse_ingredients query)
              (replicate (length (parse_ingredients query)) None))
    as [H|(out & Hvis & H)].
  - destruct (run_all_uniform order (parse_ingredients query)
                (replicate (length (parse_ingredients query)) None))
      as [[slots' H']|(out & Hvis & H')].
    + left. eexists. intros st. rewrite H. apply H'.
    + right. exists out. split; [exact Hvis |]. intros st. rewrite H. apply H'.
  - right. exists out. split; [exact Hvis |]. intros st. rewrite H. apply run_finished.
Qed.

End SearchUniform.

(** X9.  A search on a non-blank query starts from fresh state: whether it
    is still waiting, its error, its flags and the detail view do not
    depend on the state it was called in, and once it has finished
    neither does its recipe list.  (While it waits, the previous list is
    still in the state, behind the loading panel.) *)
Theorem search_starts_fresh (query : string)
    (net : nat -> fetch_outcome RecipeSummary) (order : list nat)
    (st1 st2 : app_state) :
  truthy (trim query) = true ->
  let r1 := searchRecipes query net order st1 in
  let r2 := searchRecipes query net order st2 in
  snd r1 = snd r2 /\
  error (fst r1) = error (fst r2) /\ loading (fst r1) = loading (fst r2) /\
  hasSearched (fst r1) = hasSearched (fst r2) /\
  detail_view (fst r1) = detail_view (fst r2) /\
  (snd r1 = None -> recipes (fst r1) = recipes (fst r2)).
Proof.
  intros Hq r1 r2. subst r1 r2.
  destruct (search_uniform net query order Hq) as [[task H]|[out H]]; rewrite !H.
  - repeat split. discriminate.
  - destruct out; repeat split.
Qed.

Lemma search_starts_fresh_witness :
  recipes (fst (searchRecipes "a, b" netAB [0; 1] stale_state))
    = recipes (fst (searchRecipes "a, b" netAB [0; 1] initial_state)).
Proof.
  destruct (search_starts_fresh "a, b" netAB [0; 1] stale_state initial_state eq_refl)
    as (_ & _ & _ & _ & _ & H).
  apply H. reflexivity.
Defined.

(** X10.  Repeating a finished search, with the same query, the same
    responses and the same arrival order, leaves the page as it was: the
    state after the second search equals the state after the first in
    every cell (only the console log may have grown). *)
Theorem search_twice_same_display (query : string)
    (net : nat -> fetch_outcome RecipeSummary) (order : list nat) (st : app_state) :
  truthy (trim query) = true ->
  snd (searchRecipes query net order st) = None ->
  snd (searchRecipes query net order (fst (searchRecipes query net order st))) = None /\
  same_display
    (fst (searchRecipes query net order (fst (searchRecipes query net order st))))
    (fst (searchRecipes query net order st)).
Proof.
  intros Hq Hdone.
  destruct (search_uniform net query order Hq) as [[task H]|[out H]].
  - rewrite H in Hdone. discriminate Hdone.
  - rewrite !H. split; [reflexivity |].
    destruct out; repeat split.
Qed.

Lemma search_twice_same_display_witness :
  same_display
    (fst (searchRecipes "a, b" netDown [0; 1]
            (fst (searchRecipes "a, b" netDown [0; 1] stale_state))))
    (fst (searchRecipes "a, b" netDown [0; 1] stale_state)).
Proof.
  apply (search_twice_same_display "a, b" netDown [0; 1] stale_state); reflexivity.
Defined.

(** X11.  When every request of a search is answered with a success
    status and a readable body, the order in which the responses arrive
    does not matter: any two complete arrival orders give the same final
    state. *)
Theorem arrival_order_irrelevant (query : string)
    (net : nat -> fetch_outcome RecipeSummary) (order1 order2 : list nat)
    (st : app_state) :
  (forall i, i < length (parse_ingredients query) ->
     exists data, settle (net i) = inr data) ->
  complete_schedule (length (parse_ingredients query)) order1 ->
  complete_schedule (length (parse_ingredients query)) order2 ->
  searchRecipes query net order1 st = searchRecipes query net order2 st.
Proof.
  intros Hnet H1 H2.
  assert (Hok : forall order,
            complete_schedule (length (parse_ingredients query)) order ->
            fulfilled_requests net (settled_data net)
              (length (parse_ingredients query)) order).
  { intros order [_ Hall] i Hi. apply Hall in Hi. split; [exact Hi |].
    destruct (Hnet i Hi) as [data Hdata]. unfold settled_data. now rewrite Hdata. }
  destruct (truthy (trim query)) eqn:Hq.
  - destruct (decide (length (parse_ingredients query) = 1)) as [Hn|Hn].
    + rewrite (search_single net query st order1 Hq Hn)
        by (apply (complete_schedule_first _ _ H1); lia).
      rewrite (search_single net query st order2 Hq Hn)
        by (apply (complete_schedule_first _ _ H2); lia).
      reflexivity.
    + rewrite (search_complete net query st (settled_data net) order1 Hq Hn H1 (Hok _ H1)).
      rewrite (search_complete net query st (settled_data net) order2 Hq Hn H2 (Hok _ H2)).
      reflexivity.
  - unfold searchRecipes. rewrite (searchRecipes_call_blank query st Hq).
    now rewrite !run_finished.
Qed.

Lemma arrival_order_irrelevant_witness :
  searchRecipes "a, b" netAB [0; 1] initial_state
    = searchRecipes "a, b" netAB [1; 0] initial_state.
Proof.
  apply arrival_order_irrelevant.
  - intros i _. eexists. reflexivity.
  - split; [apply (bool_decide_unpack _); vm_compute; exact I |].
    intros i. change (length (parse_ingredients "a, b")) with 2.
    rewrite !elem_of_cons, elem_of_nil. lia.
  - split; [apply (bool_decide_unpack _); vm_compute; exact I |].
    intros i. change (length (parse_ingredients "a, b")) with 2.
    rewrite !elem_of_cons, elem_of_nil. lia.
Defined.

(** X12.  What a search leaves alone and what it logs.  Whatever the
    query, the responses and their order, the text of the input and the
    loading flag of the overlay are unchanged, and the console receives
    at most one entry, a search error, in which case the recipe list is
    empty and the error shown is one of the two failure messages.  On a
    non-blank query the search is marked as made, and the loading flag is
    on exactly while the search is waiting. *)
Theorem search_frame_and_log (query : string)
    (net : nat -> fetch_outcome RecipeSummary) (order : list nat) (st : app_state) :
  let r := searchRecipes query net order st in
  searchQuery (fst r) = searchQuery st /\
  detailsLoading (fst r) = detailsLoading st /\
  (console (fst r) = console st \/
   exists err, console (fst r) = console st ++ [("Search error:", err)] /\
               recipes (fst r) = [] /\
               (error (fst r) = network_error_message \/
                error (fst r) = search_failure_message)) /\
  (truthy (trim query) = true ->
     hasSearched (fst r) = true /\ (loading (fst r) = true <-> snd r <> None)).
Proof.
  intros r. subst r. destruct (truthy (trim query)) eqn:Hq.
  - destruct (search_uniform net query order Hq) as [[task H]|[out H]]; rewrite H.
    + repeat split; auto; discriminate.
    + destruct out as [l|message|err].
      * repeat split; auto; try discriminate; intros H'; now destruct H'.
      * repeat split; auto; try discriminate; intros H'; now destruct H'.
      * split; [reflexivity |]. split; [reflexivity |]. split.
        -- right. exists err. split; [reflexivity |]. split; [reflexivity |].
           cbn. destruct (String.eqb (err_name err) "TypeError"); [left | right];
             reflexivity.
        -- intros _. split; [reflexivity |].
           split; [discriminate | intros H'; now destruct H'].
  - unfold searchRecipes. rewrite (searchRecipes_call_blank query st Hq), run_finished.
    repeat split; auto; discriminate.
Qed.

Lemma search_frame_and_log_witness :
  hasSearched (fst (searchRecipes "a, b" netBroken [1] stale_state)) = true /\
  console (fst (searchRecipes "a, b" netBroken [1] stale_state))
    = [("Search error:", Error "HTTP error! status: 500")].
Proof.
  destruct (search_frame_and_log "a, b" netBroken [1] stale_state)
    as (_ & _ & _ & H).
  destruct (H eq_refl) as [Hsearched _].
  split; [exact Hsearched | reflexivity].
Defined.

(** ** The intersection as a set *)

Section IntersectionMembership.

Lemma in_every_result_iff (lists : list (list RecipeSummary)) (m : RecipeSummary) :
  in_every_result lists m = true <->
  forall l, In l lists -> In (idMeal m) (map idMeal l).
Proof.
  unfold in_every_result. rewrite forallb_forall.
  split; intros H l Hl.
  - specialize (H l Hl). apply existsb_exists in H as [id [Hid Heq]].
    apply String.eqb_eq in Heq. now subst.
  - apply existsb_exists. exists (idMeal m). split; [now apply H | apply String.eqb_refl].
Qed.

Lemma spec_intersection_ids (lists : list (list RecipeSummary)) (id : string) :
  lists <> [] ->
  In id (map idMeal (spec_intersection lists)) <->
  forall l, In l lists -> In id (map idMeal l).
Proof.
  destruct lists as [|firstList others]; [congruence |]. intros _.
  cbn [spec_intersection]. rewrite in_map_iff. split.
  - intros [m [<- Hm]]. apply filter_In in Hm as [_ Hm].
    now apply in_every_result_iff.
  - intros Hall.
    destruct (proj1 (in_map_iff _ _ _) (Hall firstList (or_introl eq_refl)))
      as [m [<- Hm]].
    exists m. split; [reflexivity |]. apply filter_In. split; [exact Hm |].
    now apply in_every_result_iff.
Qed.

End IntersectionMembership.

(** X13.  On responses that all matched, the multi-term computation
    returns recipes whose identifiers are exactly those present in every
    term's list; so the set of identifiers found does not depend on the
    order of the terms (only the order and the records shown do). *)
Theorem intersection_is_set_intersection (lists lists' : list (list RecipeSummary)) :
  lists <> [] ->
  Permutation lists lists' ->
  exists xs xs',
    intersect (matched lists) = inr xs /\
    intersect (matched lists') = inr xs' /\
    (forall id, In id (map idMeal xs) <->
                forall l, In l lists -> In id (map idMeal l)) /\
    (forall id, In id (map idMeal xs) <-> In id (map idMeal xs')).
Proof.
  intros Hne Hperm.
  assert (Hne' : lists' <> []).
  { intros ->. apply Permutation_nil_r in Hperm. congruence. }
  destruct (intersect_ids lists Hne) as [xs [Hxs Hids]].
  destruct (intersect_ids lists' Hne') as [xs' [Hxs' Hids']].
  exists xs, xs'. split; [exact Hxs |]. split; [exact Hxs' |].
  rewrite Hids, Hids'. split.
  - intros id. now apply spec_intersection_ids.
  - intros id. rewrite !spec_intersection_ids by assumption.
    split; intros H l Hl; apply H.
    + now rewrite Hperm.
    + now rewrite <- Hperm.
Qed.

Lemma intersection_is_set_intersection_witness :
  exists xs xs',
    intersect (matched [upstreamAB 0; upstreamAB 1]) = inr xs /\
    intersect (matched [upstreamAB 1; upstreamAB 0]) = inr xs' /\
    (forall id, In id (map idMeal xs) <-> In id (map idMeal xs')).
Proof.
  destruct (intersection_is_set_intersection
              [upstreamAB 0; upstreamAB 1] [upstreamAB 1; upstreamAB 0])
    as (xs & xs' & H1 & H2 & _ & H).
  - discriminate.
  - apply perm_swap.
  - now exists xs, xs'.
Defined.

(** ** What a finished search shows *)

(** X14.  A finished search that did not take the single-term branch
    always puts exactly one thing on the page: either the error panel,
    with an empty recipe list, or the results grid, with no error; never
    both and never neither. *)
Theorem multi_search_shows_one_panel (query : string)
    (net : nat -> fetch_outcome RecipeSummary) (order : list nat) (st : app_state) :
  truthy (trim query) = true ->
  length (parse_ingredients query) <> 1 ->
  snd (searchRecipes query net order st) = None ->
  let final := fst (searchRecipes query net order st) in
  shows_loading final = false /\ shows_welcome final = false /\
  (shows_error final = true /\ shows_results final = false /\ recipes final = [] \/
   shows_error final = false /\ shows_results final = true).
Proof.
  intros Hq Hn Hdone final. subst final.
  destruct (search_multi_uniform net query order Hq Hn) as [[task H]|(out & Hvis & H)].
  - rewrite H in Hdone. discriminate Hdone.
  - rewrite H. cbn [fst]. destruct out as [l|message|err]; cbn in Hvis.
    + split; [reflexivity |]. split; [reflexivity |].
      right. destruct l; [congruence |]. split; reflexivity.
    + split; [reflexivity |].
      unfold shows_welcome, shows_error, shows_results. cbn. rewrite Hvis. cbn.
      split; [reflexivity |]. left. repeat split.
    + split; [reflexivity |].
      unfold shows_welcome, shows_error, shows_results. cbn.
      destruct (String.eqb (err_name err) "TypeError"); cbn;
        (split; [reflexivity |]); left; repeat split.
Qed.

Lemma multi_search_shows_one_panel_witness :
  shows_error (fst (searchRecipes "chicken, unobtainium" netNoMatch [1; 0] stale_state))
    = true /\
  shows_results (fst (searchRecipes "a, b" netAB [1; 0] stale_state)) = true.
Proof.
  split.
  - destruct (multi_search_shows_one_panel "chicken, unobtainium" netNoMatch [1; 0]
                stale_state eq_refl) as (_ & _ & [(H & _)|(H & _)]).
    + vm_compute. intros H. discriminate H.
    + reflexivity.
    + exact H.
    + vm_compute in H. discriminate H.
  - destruct (multi_search_shows_one_panel "a, b" netAB [1; 0]
                stale_state eq_refl) as (_ & _ & [(H & _)|(_ & H)]).
    + vm_compute. intros H. discriminate H.
    + reflexivity.
    + vm_compute in H. discriminate H.
    + exact H.
Defined.

(** X15.  The single-term branch tests [data.meals] for truthiness, and an
    empty array is truthy: when the endpoint answers a single-term search
    with an empty array, the search ends with no recipes and no error,
    and the main area shows none of its four panels. *)
Theorem single_search_empty_array (query : string)
    (net : nat -> fetch_outcome RecipeSummary) (order : list nat) (st : app_state)
    (status : nat) :
  length (parse_ingredients query) = 1 ->
  0 ∈ order ->
  net 0 = HttpResponse status (JsonBody (mkApiResponse (Some []))) ->
  ok status = true ->
  let final := fst (searchRecipes query net order st) in
  recipes final = [] /\ error final = "" /\
  shows_loading final = false /\ shows_error final = false /\
  shows_results final = false /\ shows_welcome final = false.
Proof.
  intros Hn Hin Hnet Hok final. subst final.
  assert (Hq : truthy (trim query) = true).
  { apply parse_ingredients_truthy. intros H. now rewrite H in Hn. }
  rewrite (search_single net query st order Hq Hn Hin).
  unfold search_try. rewrite Hnet, (settle_ok _ _ Hok).
  repeat split.
Qed.

Lemma single_search_empty_array_witness :
  shows_results (fst (searchRecipes "chicken" netEmptyArray [0] initial_state)) = false /\
  shows_error (fst (searchRecipes "chicken" netEmptyArray [0] initial_state)) = false.
Proof.
  destruct (single_search_empty_array "chicken" netEmptyArray [0] initial_state 200)
    as (_ & _ & _ & He & Hr & _).
  - reflexivity.
  - left.
  - reflexivity.
  - reflexivity.
  - split; [exact Hr | exact He].
Defined.

(** ** The reachable states of the component *)

Section Reachable.

Lemma search_end_facts (st st' : app_state) :
  search_end st st' ->
  loading st' = false /\ hasSearched st' = hasSearched st /\
  selectedRecipe st' = selectedRecipe st.
Proof. now intros [l|message|err]. Qed.

Lemma truthy_neq (s : string) : truthy s = true <-> s <> "".
Proof. destruct s; split; intros H; try reflexivity; try discriminate; congruence. Qed.

Lemma suggestions_truthy (ingredient : string) :
  In ingredient suggestions -> truthy (trim ingredient) = true.
Proof. intros [<-|[<-|[<-|[<-|[]]]]]; reflexivity. Qed.

(** A call of [searchRecipes] on a non-blank query, in a state without a
    search in flight, establishes the invariant. *)
Lemma call_inv (query : string) (st : app_state) (pending : nat) :
  truthy (trim query) = true ->
  app_inv (mkApp (fst (searchRecipes_call query st))
             ([] ++ option_list (snd (searchRecipes_call query st))) pending).
Proof.
  intros Hq.
  destruct (searchRecipes_end (fun _ => TransportFailure "") query [] st Hq)
    as [[task H]|[st' [H Hend]]];
    change (searchRecipes query (fun _ => TransportFailure "") [] st)
      with (searchRecipes_call query st) in H; rewrite H; unfold app_inv; cbn.
  - split; [left; split; [reflexivity | now exists task] |].
    split; [intros _; repeat split |].
    split; [intros He; now destruct He | discriminate].
  - destruct (search_end_facts _ _ Hend) as (Hl & Hs & _).
    split; [right; split; [exact Hl | reflexivity] |].
    split; [rewrite Hl; discriminate |].
    split; [now apply (search_end_error (search_reset st)) |].
    rewrite Hs. discriminate.
Qed.

Lemma app_inv_idle (a : app) :
  app_inv a -> loading (ui a) = false -> searches a = [].
Proof.
  intros ([[Hl _]|[_ Hs]] & _) Hfalse; [congruence | exact Hs].
Qed.

Lemma app_inv_panel_idle (a : app) :
  app_inv a -> shows_error (ui a) || shows_results (ui a) = true ->
  loading (ui a) = false.
Proof.
  intros (_ & Hload & _) Hshown.
  destruct (loading (ui a)) eqn:Hl; [| reflexivity].
  destruct (Hload eq_refl) as (He & _).
  unfold shows_error, shows_results in Hshown. rewrite He, Hl in Hshown.
  discriminate Hshown.
Qed.

(** A step that leaves the search cells and the in-flight searches alone,
    and selects a recipe only when no search is loading, keeps the
    invariant. *)
Lemma app_inv_frame (a : app) (st' : app_state) (pending : nat) :
  app_inv a ->
  loading st' = loading (ui a) -> error st' = error (ui a) ->
  recipes st' = recipes (ui a) -> hasSearched st' = hasSearched (ui a) ->
  (loading (ui a) = true -> selectedRecipe st' = None) ->
  app_inv (mkApp st' (searches a) pending).
Proof.
  intros (H1 & H2 & H3 & H4) Hl He Hr Hs Hsel. unfold app_inv. cbn.
  rewrite Hl, He, Hr, Hs. split; [exact H1 |]. split; [| now split].
  intros Hload. destruct (H2 Hload) as (? & ? & ?). repeat split; auto.
Qed.

Lemma app_step_inv (a b : app) : app_inv a -> app_step a b -> app_inv b.
Proof.
  intros Hinv Hstep. destruct Hstep.
  - (* typing *)
    apply app_inv_frame; try reflexivity; [exact Hinv |].
    intros Hl. now apply Hinv.
  - (* submit *)
    unfold submit_disabled in H. apply orb_false_iff in H as [Hl Hq].
    apply negb_false_iff in Hq.
    rewrite (app_inv_idle a Hinv Hl). unfold handleSubmit. now apply call_inv.
  - (* suggestion *)
    unfold shows_welcome in H.
    apply andb_true_iff in H as [H _]. apply andb_true_iff in H as [Hl _].
    apply negb_true_iff in Hl.
    rewrite (app_inv_idle a Hinv Hl). unfold handleSuggestionClick.
    apply call_inv. now apply suggestions_truthy.
  - (* search again *)
    pose proof (app_inv_panel_idle a Hinv H) as Hl.
    rewrite (app_inv_idle a Hinv Hl). unfold app_inv. cbn. rewrite Hl.
    split; [now right |]. split; [discriminate |].
    split; [intros He; now destruct He | now split].
  - (* recipe click *)
    unfold shows_results in H.
    apply andb_true_iff in H as [H _]. apply andb_true_iff in H as [Hl _].
    apply negb_true_iff in Hl.
    apply app_inv_frame; try exact Hinv;
      try (unfold handleRecipeClick_call, fetchRecipeDetails_call;
           now destruct (truthy (idMeal recipe))).
    congruence.
  - (* close *)
    now apply app_inv_frame.
  - (* key *)
    apply app_inv_frame; try exact Hinv;
      try (unfold handleEscape;
           now destruct (String.eqb key "Escape" &&
                         bool_decide (is_Some (selectedRecipe (ui a))))).
    intros Hl. destruct Hinv as (_ & H2 & _). destruct (H2 Hl) as (_ & _ & Hsel).
    unfold handleEscape.
    now destruct (String.eqb key "Escape" &&
                  bool_decide (is_Some (selectedRecipe (ui a)))).
  - (* retry *)
    apply app_inv_frame; try exact Hinv;
      try (unfold fetchRecipeDetails_call; now destruct (truthy (idMeal recipe))).
    intros Hl. destruct Hinv as (_ & H2 & _). destruct (H2 Hl) as (_ & _ & Hsel).
    congruence.
  - (* a search request settles *)
    destruct Hinv as ([[Hl [task0 Hs]]|[_ Hs]] & H2 & H3 & H4).
    2:{ rewrite Hs in H. now destruct before. }
    rewrite Hs in H.
    assert (before = [] /\ after = [] /\ task = task0) as (-> & -> & ->).
    { destruct before as [|x before]; [injection H as -> <-; auto |].
      injection H as _ H. now destruct before. }
    destruct (H2 Hl) as (He & Hsearched & Hsel).
    destruct (step_end (fun _ => o) (ui a) task0 i) as [[task' ->]|[st' [-> Hend]]];
      unfold app_inv; cbn.
    + split; [left; split; [exact Hl | now exists task'] |].
      split; [intros _; now repeat split | now split].
    + destruct (search_end_facts _ _ Hend) as (Hl' & Hs' & _).
      split; [right; now split |].
      split; [rewrite Hl'; discriminate |].
      split; [now apply (search_end_error (ui a)) |].
      rewrite Hs', Hsearched. discriminate.
  - (* a detail request settles *)
    destruct (settle_search_part o (ui a)) as (Hr & He & Hl & Hs & _).
    apply app_inv_frame; try assumption.
    intros Hload. rewrite settle_selectedRecipe. now apply Hinv.
Qed.

Lemma reachable_inv (a : app) : reachable a -> app_inv a.
Proof.
  induction 1 as [|a b _ IH Hstep].
  - unfold app_inv, mounted. cbn.
    split; [now right |]. split; [discriminate |].
    split; [intros H; now destruct H | now split].
  - exact (app_step_inv a b IH Hstep).
Qed.

Lemma reachable_after_suggestion : reachable after_suggestion.
Proof.
  apply (reachable_step mounted); [constructor |].
  apply (step_suggestion mounted "chicken"); [reflexivity | now left].
Qed.

Lemma reachable_after_results : reachable after_results.
Proof.
  apply (reachable_step after_suggestion); [apply reachable_after_suggestion |].
  exact (step_search_settles after_suggestion [] [] (AwaitFetch "chicken") 0 (netAB 0)
           eq_refl).
Qed.

End Reachable.

(** X16.  In every state the component can reach through the actions the
    page offers and the responses of its requests: at most one search is
    in flight, and the loading flag is on exactly while one is; an error
    message is never accompanied by recipes; before the first search (and
    after a reset) there are neither recipes nor an error; and while a
    search is loading the overlay is closed and no error is shown. *)
Theorem reachable_state_invariants (a : app) :
  reachable a ->
  length (searches a) <= 1 /\
  (loading (ui a) = true <-> searches a <> []) /\
  (error (ui a) <> "" -> recipes (ui a) = []) /\
  (hasSearched (ui a) = false -> recipes (ui a) = [] /\ error (ui a) = "") /\
  (loading (ui a) = true -> modal (ui a) = ModalHidden /\ error (ui a) = "").
Proof.
  intros Hreach. destruct (reachable_inv a Hreach) as (H1 & H2 & H3 & H4).
  split; [| split; [| split; [exact H3 | split; [exact H4 |]]]].
  - destruct H1 as [[_ [task ->]]|[_ ->]]; simpl; lia.
  - destruct H1 as [[Hl [task ->]]|[Hl ->]]; rewrite Hl.
    + split; [discriminate | reflexivity].
    + split; [discriminate | congruence].
  - intros Hl. destruct (H2 Hl) as (He & _ & Hsel).
    split; [| exact He]. unfold modal. now rewrite Hsel.
Qed.

Lemma reachable_state_invariants_witness :
  loading (ui after_suggestion) = true /\ length (searches after_suggestion) = 1 /\
  modal (ui after_suggestion) = ModalHidden.
Proof.
  destruct (reachable_state_invariants after_suggestion reachable_after_suggestion)
    as (_ & _ & _ & _ & H).
  destruct (H eq_refl) as [Hmodal _].
  split; [reflexivity |]. split; [reflexivity | exact Hmodal].
Defined.

(** X17.  In every reachable state the main area shows at most one of its
    four panels (loading, error, results, welcome). *)
Theorem one_panel_at_a_time (a : app) :
  reachable a ->
  length (List.filter (fun shown : bool => shown)
            [shows_loading (ui a); shows_error (ui a);
             shows_results (ui a); shows_welcome (ui a)]) <= 1.
Proof.
  intros Hreach. destruct (reachable_inv a Hreach) as (_ & H2 & _ & H4).
  unfold shows_loading, shows_error, shows_results, shows_welcome.
  destruct (loading (ui a)) eqn:Hl.
  - destruct (H2 eq_refl) as (-> & _). simpl. lia.
  - destruct (error (ui a)) as [|c e] eqn:He; [| simpl; lia].
    destruct (hasSearched (ui a)) eqn:Hs.
    + simpl. destruct (0 <? length (recipes (ui a))); simpl; lia.
    + destruct (H4 eq_refl) as (-> & _). simpl. lia.
Qed.

Lemma one_panel_at_a_time_witness :
  shows_results (ui after_results) = true /\
  shows_loading (ui after_results) = false /\
  shows_error (ui after_results) = false /\
  shows_welcome (ui after_results) = false.
Proof.
  pose proof (one_panel_at_a_time after_results reachable_after_results) as H.
  assert (Hr : shows_results (ui after_results) = true) by reflexivity.
  rewrite Hr in H.
  destruct (shows_loading (ui after_results)), (shows_error (ui after_results)),
    (shows_welcome (ui after_results)); simpl in H; try lia.
  repeat split.
Defined.

(** X18.  In a reachable state, whenever a reset button is on the page
    (the error panel or the results grid is shown), pressing it returns
    to the welcome panel with an empty input, a disabled submit button
    and a closed overlay. *)
Theorem search_again_returns_to_welcome (a : app) :
  reachable a ->
  shows_error (ui a) || shows_results (ui a) = true ->
  let st' := handleSearchAgain (ui a) in
  shows_welcome st' = true /\ shows_loading st' = false /\
  shows_error st' = false /\ shows_results st' = false /\
  modal st' = ModalHidden /\ searchQuery st' = "" /\ submit_disabled st' = true.
Proof.
  intros Hreach Hshown st'. subst st'.
  pose proof (app_inv_panel_idle a (reachable_inv a Hreach) Hshown) as Hl.
  unfold shows_welcome, shows_loading, shows_error, shows_results, submit_disabled.
  cbn. rewrite Hl. repeat split.
Qed.

Lemma search_again_returns_to_welcome_witness :
  shows_results (ui after_results) = true /\
  shows_welcome (handleSearchAgain (ui after_results)) = true.
Proof.
  destruct (search_again_returns_to_welcome after_results reachable_after_results)
    as (H & _).
  - reflexivity.
  - split; [reflexivity | exact H].
Defined.

Section OverlaySpinner.

Lemma search_end_detailsLoading (st st' : app_state) :
  search_end st st' -> detailsLoading st' = detailsLoading st.
Proof. now intros [l|message|err]. Qed.

Lemma call_detailsLoading (query : string) (st : app_state) :
  detailsLoading (fst (searchRecipes_call query st)) = detailsLoading st.
Proof.
  destruct (truthy (trim query)) eqn:Hq.
  - destruct (searchRecipes_end (fun _ => TransportFailure "") query [] st Hq)
      as [[task H]|[st' [H Hend]]];
      change (searchRecipes query (fun _ => TransportFailure "") [] st)
        with (searchRecipes_call query st) in H; rewrite H.
    + reflexivity.
    + cbn [fst]. now rewrite (search_end_detailsLoading _ _ Hend).
  - now rewrite (searchRecipes_call_blank query st Hq).
Qed.

Lemma settle_detailsLoading (o : fetch_outcome RecipeDetail) (st : app_state) :
  detailsLoading (fetchRecipeDetails_settle o st) = false.
Proof.
  unfold fetchRecipeDetails_settle.
  now destruct (details_body_cases o st) as [(d & _ & ->)|(err & -> & _)].
Qed.

Lemma details_call_pending (recipeId : string) (st : app_state) (pending : nat) :
  (detailsLoading st = true -> 0 < pending) ->
  detailsLoading (fst (fetchRecipeDetails_call recipeId st)) = true ->
  0 < pending + (if truthy recipeId then 1 else 0).
Proof.
  unfold fetchRecipeDetails_call. destruct (truthy recipeId); cbn [fst]; [lia |].
  intros IH H. specialize (IH H). lia.
Qed.

End OverlaySpinner.

(** X19.  In every reachable state, a spinning overlay has a request to
    wait for: the loading flag of the overlay is on only while at least
    one detail request is in flight. *)
Theorem overlay_spinner_has_request (a : app) :
  reachable a -> detailsLoading (ui a) = true -> 0 < detail_requests a.
Proof.
  induction 1 as [|a b _ IH Hstep]; [discriminate |].
  destruct Hstep; cbn [ui detail_requests].
  - exact IH.
  - unfold handleSubmit. now rewrite call_detailsLoading.
  - unfold handleSuggestionClick. now rewrite call_detailsLoading.
  - exact IH.
  - unfold handleRecipeClick_call. now apply details_call_pending.
  - exact IH.
  - unfold handleEscape.
    now destruct (String.eqb key "Escape" &&
                  bool_decide (is_Some (selectedRecipe (ui a)))).
  - now apply details_call_pending.
  - destruct (step_end (fun _ => o) (ui a) task i) as [[task' ->]|[st' [-> Hend]]];
      cbn [fst]; [exact IH |].
    now rewrite (search_end_detailsLoading _ _ Hend).
  - rewrite settle_detailsLoading. discriminate.
Qed.

Lemma overlay_spinner_has_request_witness :
  detailsLoading
    (ui (mkApp (handleRecipeClick_call recipeY (ui after_results)) [] 1)) = true /\
  0 < detail_requests (mkApp (handleRecipeClick_call recipeY (ui after_results)) [] 1).
Proof.
  split; [reflexivity |].
  apply overlay_spinner_has_request; [| reflexivity].
  apply (reachable_step after_results); [apply reachable_after_results |].
  exact (step_recipe_click after_results recipeY eq_refl
           (or_intror (or_introl eq_refl))).
Defined.


(* ================================================================== *)
(** * Part IV: rejected requests, empty responses and late responses *)
(* ================================================================== *)

Section Rejections.

Lemma rejects_settle {A : Type} (o : fetch_outcome A) :
  rejects o ->
  exists err, settle o = inl err /\
              (err_name err = "TypeError" <-> exists message, o = TransportFailure message).
Proof.
  intros [[message ->]|[(status & body & -> & Hok)|(status & message & -> & Hok)]].
  - exists (TypeError message). split; [reflexivity |].
    split; [intros _; now exists message | reflexivity].
  - exists (Error ("HTTP error! status: " +:+ string_of_nat status)).
    unfold settle. rewrite Hok. split; [reflexivity |].
    split; [discriminate | intros [m H]; discriminate H].
  - exists (SyntaxError message).
    unfold settle. rewrite Hok. split; [reflexivity |].
    split; [discriminate | intros [m H]; discriminate H].
Qed.

Lemma caught_error (err : js_error) (st : app_state) :
  recipes (st |> search_catch err |> setLoading false) = [] /\
  error (st |> search_catch err |> setLoading false) =
    (if String.eqb (err_name err) "TypeError"
     then network_error_message else search_failure_message) /\
  error (st |> search_catch err |> setLoading false) <> "" /\
  console (st |> search_catch err |> setLoading false) =
    console st ++ [("Search error:", err)].
Proof.
  repeat split. cbn.
  destruct (String.eqb (err_name err) "TypeError"); discriminate.
Qed.

Lemma caught_message (err : js_error) (o : fetch_outcome RecipeSummary) (st : app_state) :
  (err_name err = "TypeError" <-> exists message, o = TransportFailure message) ->
  ((exists message, o = TransportFailure message) ->
     error (st |> search_catch err |> setLoading false) = network_error_message) /\
  ((forall message, o <> TransportFailure message) ->
     error (st |> search_catch err |> setLoading false) = search_failure_message).
Proof.
  intros Hname. destruct (caught_error err st) as (_ & -> & _).
  destruct (String.eqb (err_name err) "TypeError") eqn:E.
  - split; [reflexivity |]. intros Hnot.
    apply String.eqb_eq, Hname in E as [message E]. now destruct (Hnot message).
  - split; [| reflexivity]. intros Ho.
    apply Hname in Ho. apply String.eqb_neq in E. contradiction.
Qed.

(** The first request that does not succeed ends the search, whatever is
    still outstanding and whatever arrives afterwards. *)
Lemma search_first_rejection (query : string)
    (net : nat -> fetch_outcome RecipeSummary) (dat : nat -> ApiResponse RecipeSummary)
    (pre post : list nat) (i : nat) (st : app_state) :
  truthy (trim query) = true ->
  NoDup pre ->
  fulfilled_requests net dat (length (parse_ingredients query)) pre ->
  i < length (parse_ingredients query) ->
  i ∉ pre ->
  rejects (net i) ->
  exists err,
    settle (net i) = inl err /\
    (err_name err = "TypeError" <-> exists message, net i = TransportFailure message) /\
    searchRecipes query net (pre ++ i :: post) st =
      (search_reset st |> search_catch err |> setLoading false, None).
Proof.
  intros Hq Hnd Hok Hi Hnot Hrej.
  destruct (rejects_settle (net i) Hrej) as [err [Herr Hname]].
  exists err. split; [exact Herr |]. split; [exact Hname |].
  now apply (search_rejected net query st dat pre post i err).
Qed.

Lemma in_every_result_empty (lists : list (list RecipeSummary)) (m : RecipeSummary) :
  In [] lists -> in_every_result lists m = false.
Proof.
  intros Hin. unfold in_every_result.
  destruct (forallb _ lists) eqn:E; [| reflexivity].
  rewrite forallb_forall in E. specialize (E [] Hin). discriminate E.
Qed.

Lemma filter_none {A : Type} (f : A -> bool) (l : list A) :
  (forall x, f x = false) -> List.filter f l = [].
Proof.
  intros Hf. induction l as [|x l IH]; [reflexivity |].
  cbn [List.filter]. now rewrite Hf.
Qed.

Lemma spec_intersection_empty_list (lists : list (list RecipeSummary)) :
  In [] lists -> spec_intersection lists = [].
Proof.
  intros Hin. destruct lists as [|firstList others]; [reflexivity |].
  cbn [spec_intersection]. apply filter_none.
  intros m. now apply in_every_result_empty.
Qed.

End Rejections.



(** C3.  Whenever a search on a non-blank query leaves an error message,
    the recipe list is empty.  A search whose first non-succeeding
    request is a transport failure, a non-success status or an unreadable
    body does end with an error message and an empty list.  When every
    request succeeds and some term's response is [null], or (several
    terms) no recipe is common to all lists, in particular when some list
    is an empty array, the error is the no-results message, which quotes
    the query (single term) or the comma-joined terms, so every requested
    term occurs in it.  The single-term branch misses one case: when its
    response is an empty array the list is empty but no error is set. *)
Theorem search_error_clears_recipes (query : string)
    (net : nat -> fetch_outcome RecipeSummary) (order : list nat) (st : app_state) :
  truthy (trim query) = true ->
  let ings := parse_ingredients query in
  let n := length ings in
  let final := fst (searchRecipes query net order st) in
  (error final <> "" -> recipes final = []) /\
  (forall (dat : nat -> ApiResponse RecipeSummary) (pre post : list nat) (i : nat),
      order = pre ++ i :: post ->
      NoDup pre -> fulfilled_requests net dat n pre -> i < n -> i ∉ pre ->
      rejects (net i) ->
      recipes final = [] /\ error final <> "" /\
      ((exists message, net i = TransportFailure message) ->
         error final = network_error_message) /\
      ((forall message, net i <> TransportFailure message) ->
         error final = search_failure_message)) /\
  (forall dat : nat -> ApiResponse RecipeSummary,
      complete_schedule n order ->
      fulfilled_requests net dat n order ->
      (exists i, i < n /\ meals (dat i) = None) ->
      recipes final = [] /\
      error final = (if n =? 1 then no_results_single query else no_results_multi ings) /\
      Forall (fun t => substring_of t (error final)) ings) /\
  (forall upstream : nat -> list RecipeSummary,
      2 <= n ->
      complete_schedule n order ->
      fulfilled_requests net (fun i => mkApiResponse (Some (upstream i))) n order ->
      spec_intersection (map upstream (seq 0 n)) = [] \/
      (exists i, i < n /\ upstream i = []) ->
      recipes final = [] /\
      error final = no_results_multi ings /\
      Forall (fun t => substring_of t (error final)) ings) /\
  (forall status : nat,
      n = 1 -> 0 ∈ order ->
      net 0 = HttpResponse status (JsonBody (mkApiResponse (Some []))) ->
      ok status = true ->
      recipes final = [] /\ error final = "").
Proof.
  intros Hq ings n final. subst ings n final.
  split; [| split; [| split; [| split]]].
  - destruct (searchRecipes_end net query order st Hq) as [[task ->]|[st' [-> Hend]]].
    + intros H. now destruct H.
    + now apply (search_end_error (search_reset st)).
  - intros dat pre post i -> Hnd Hok Hi Hnot Hrej.
    destruct (search_first_rejection query net dat pre post i st Hq Hnd Hok Hi Hnot Hrej)
      as (err & _ & Hname & ->).
    cbn [fst].
    destruct (caught_error err (search_reset st)) as (Hrecipes & _ & Hne & _).
    split; [exact Hrecipes |]. split; [exact Hne |].
    now apply caught_message.
  - intros dat Hsched Hok [i [Hi Hnull]].
    rewrite (search_no_match net query order st Hq Hsched dat i Hok Hi Hnull).
    split; [reflexivity |]. split; [reflexivity |].
    apply Forall_forall. intros t Ht. apply list_elem_of_In in Ht.
    cbn [fst error setLoading setError].
    destruct (length (parse_ingredients query) =? 1).
    + apply (substring_of_trans _ query); [| apply substring_no_results_single].
      pose proof (parse_ingredients_terms query) as Hterms.
      rewrite Forall_forall in Hterms.
      now apply Hterms, list_elem_of_In.
    + now apply substring_no_results_multi.
  - intros upstream Hn Hsched Hok Hcases.
    assert (Hempty : spec_intersection
                       (map upstream (seq 0 (length (parse_ingredients query)))) = []).
    { destruct Hcases as [H|[i [Hi Hnil]]]; [exact H |].
      apply spec_intersection_empty_list. rewrite <- Hnil.
      apply in_map, in_seq. lia. }
    rewrite (search_empty_intersection net query order st Hq Hsched upstream Hn Hok Hempty).
    split; [reflexivity |]. split; [reflexivity |].
    apply Forall_forall. intros t Ht. apply list_elem_of_In in Ht.
    now apply substring_no_results_multi.
  - intros status Hn Hin Hnet Hok.
    rewrite (search_single net query st order Hq Hn Hin).
    unfold search_try. rewrite Hnet, (settle_ok _ _ Hok).
    split; reflexivity.
Qed.

Lemma search_error_clears_recipes_witness :
  (recipes (fst (searchRecipes "chicken" netEmptyArray [0] initial_state)) = [] /\
   error (fst (searchRecipes "chicken" netEmptyArray [0] initial_state)) = "") /\
  error (fst (searchRecipes "a, b" netEmptyB [0; 1] initial_state))
    = no_results_multi ["a"; "b"] /\
  error (fst (searchRecipes "chicken, unobtainium" netNoMatch [0; 1] initial_state))
    = no_results_multi ["chicken"; "unobtainium"] /\
  recipes (fst (searchRecipes "a, b" netBroken [0; 1] stale_state)) = [].
Proof.
  assert (Hsched : forall query, length (parse_ingredients query) = 2 ->
            complete_schedule (length (parse_ingredients query)) [0; 1]).
  { intros query ->. split.
    - apply (bool_decide_unpack _). vm_compute. exact I.
    - intros i. rewrite !elem_of_cons, elem_of_nil. lia. }
  assert (Hok : forall (query : string) (net : nat -> fetch_outcome RecipeSummary),
            length (parse_ingredients query) = 2 ->
            (forall i, i < 2 -> settle (net i) = inr (settled_data net i)) ->
            fulfilled_requests net (settled_data net)
              (length (parse_ingredients query)) [0; 1]).
  { intros query net -> Hnet i Hi.
    rewrite !elem_of_cons, elem_of_nil in Hi.
    assert (i < 2) by lia. split; [assumption | now apply Hnet]. }
  split; [| split; [| split]].
  - destruct (search_error_clears_recipes "chicken" netEmptyArray [0] initial_state eq_refl)
      as (_ & _ & _ & _ & H).
    apply (H 200); [reflexivity | left | reflexivity | reflexivity].
  - destruct (search_error_clears_recipes "a, b" netEmptyB [0; 1] initial_state eq_refl)
      as (_ & _ & _ & H & _).
    destruct (H upstreamEmptyB) as (_ & He & _).
    + vm_compute. lia.
    + now apply Hsched.
    + intros i Hi. rewrite !elem_of_cons, elem_of_nil in Hi.
      split; [vm_compute; lia | reflexivity].
    + right. exists 1. split; [vm_compute; lia | reflexivity].
    + exact He.
  - destruct (search_error_clears_recipes "chicken, unobtainium" netNoMatch [0; 1]
                initial_state eq_refl) as (_ & _ & H & _).
    destruct (H (settled_data netNoMatch)) as (_ & He & _).
    + now apply Hsched.
    + apply Hok; [reflexivity |]. intros i Hi.
      destruct i as [|[|i]]; [reflexivity | reflexivity | lia].
    + exists 1. split; [vm_compute; lia | reflexivity].
    + exact He.
  - destruct (search_error_clears_recipes "a, b" netBroken [0; 1] stale_state eq_refl)
      as (_ & H & _).
    destruct (H (settled_data netBroken) [0] [] 1 eq_refl) as (Hr & _).
    + apply (bool_decide_unpack _). vm_compute. exact I.
    + intros i Hi. apply list_elem_of_singleton in Hi as ->.
      split; [vm_compute; lia | reflexivity].
    + vm_compute. lia.
    + apply (bool_decide_unpack _). vm_compute. exact I.
    + right. left. exists 500, (InvalidJson "Unexpected token"). now split.
    + exact Hr.
Defined.

(** ** Detail responses that arrive after a new search *)

(** The bookkeeping changes nothing: every step of the component with
    bookkeeping is a step of the component, so every state it reaches is
    a reachable state. *)
Lemma traced_step_app (t t' : traced) : traced_step t t' -> app_step (page t) (page t').
Proof. intros Hstep. destruct Hstep; cbn [page]; econstructor; eassumption. Qed.

Lemma traced_reachable_app (t : traced) : traced_reachable t -> reachable (page t).
Proof.
  induction 1 as [|t t' _ IH Hstep]; [constructor |].
  exact (reachable_step _ _ IH (traced_step_app t t' Hstep)).
Qed.



